(** * celiter: lazily advancing cursors as CEL iterable values

    A shallow embedding of [celiter.go] and the properties of its
    cursor ([Value]), the importer [FromSeq] and the exporter [AsSeq].

    Conventions of the embedding.
    - Go's [int] and [int64] are 64-bit two's complement integers, carried
      by [Z] with the wrap-around written out ([GoInt.wrap]).
    - A Go [error] is carried by its message; [None] is the nil error.
    - The callbacks of a cursor are closures over variables of the
      embedding application.  Those captured variables are the field [env]
      of the cursor, and a callback is a function from [env] to its Go
      result tuple and the updated [env].
    - A method that can fault (a failed type assertion, a nil dereference)
      returns an [outcome]; loops take a bound on their number of
      iterations and report [OutOfFuel] when it does not suffice. *)

From Stdlib Require Import ZArith List String Bool Lia Sorted.
Import ListNotations.
Local Open Scope Z_scope.

(** ** Machine integers *)

Module GoInt.

Definition min_int : Z := - 2 ^ 63.
Definition max_int : Z := 2 ^ 63 - 1.

(** Reduction of an integer to the 64-bit two's complement range. *)
Definition wrap (z : Z) : Z := (z + 2 ^ 63) mod 2 ^ 64 - 2 ^ 63.

(** [i++] on an [int]. *)
Definition incr (z : Z) : Z := wrap (z + 1).

Definition in_range (z : Z) : Prop := min_int <= z <= max_int.

End GoInt.

(** ** Host values: the part of cel-go's [ref.Val] the cursor meets *)

Definition error := string.

Inductive Val : Type :=
| VNull
| VBool (b : bool)
| VInt (n : Z)
| VString (s : string)
| VErr (msg : error).

(** [types.NewErr(format, args...)] once the message is formatted. *)
Definition NewErr (msg : string) : Val := VErr msg.

(** The name of [v.Type()], as [%s] prints it. *)
Definition type_name (v : Val) : string :=
  match v with
  | VNull => "null_type"
  | VBool _ => "bool"
  | VInt _ => "int"
  | VString _ => "string"
  | VErr _ => "error"
  end.

(** [v.Value().(bool)]: the payload of a host boolean; every other host
    value carries a payload of another Go type and the assertion faults. *)
Definition value_bool (v : Val) : option bool :=
  match v with
  | VBool b => Some b
  | _ => None
  end.

(** [a.Equal(b)], the host equality of the receiver [a]. An error value
    answers with itself. *)
Definition val_equal (a b : Val) : Val :=
  match a with
  | VErr m => VErr m
  | VNull => VBool (match b with VNull => true | _ => false end)
  | VBool x => VBool (match b with VBool y => Bool.eqb x y | _ => false end)
  | VInt x => VBool (match b with VInt y => Z.eqb x y | _ => false end)
  | VString x => VBool (match b with VString y => String.eqb x y | _ => false end)
  end.

(** [r == types.True]. *)
Definition is_True (r : Val) : bool :=
  match r with
  | VBool true => true
  | _ => false
  end.

(** [fmt.Sprintf("%v", rv) == "true"]: a host boolean prints as [true] or
    [false], a string and an error print as their text, a number prints
    as digits. *)
Definition sprint_is_true (rv : Val) : bool :=
  match rv with
  | VBool b => b
  | VString s => String.eqb s "true"
  | VErr m => String.eqb m "true"
  | VInt _ => false
  | VNull => false
  end.

(** ** Native types: what [reflect] and the type adapter see of [T] *)

(** The [reflect.Type]s of the embedding: the predeclared types [bool],
    [int], [int64] and [string], the empty interface and the slice types
    over these. Defined types of an application and interfaces with
    methods are outside it. *)
Inductive RType : Type :=
| RBool
| RInt
| RInt64
| RString
| REmptyInterface
| RSlice (elem : RType).

Fixpoint rtype_eqb (a b : RType) : bool :=
  match a, b with
  | RBool, RBool => true
  | RInt, RInt => true
  | RInt64, RInt64 => true
  | RString, RString => true
  | REmptyInterface, REmptyInterface => true
  | RSlice x, RSlice y => rtype_eqb x y
  | _, _ => false
  end.

(** [typ.Name()]: the name of a defined type, empty for a type literal. *)
Definition rtype_Name (t : RType) : string :=
  match t with
  | RBool => "bool"
  | RInt => "int"
  | RInt64 => "int64"
  | RString => "string"
  | REmptyInterface => ""
  | RSlice _ => ""
  end.

(** [src.AssignableTo(dst)] between two of these types: identical types,
    or the empty interface, which every type implements. (Go's other
    cases need a defined type over a type literal or an interface with
    methods, and there is none among these types.) *)
Definition AssignableTo (src dst : RType) : bool :=
  rtype_eqb src dst || rtype_eqb dst REmptyInterface.

(** What the code uses of the type parameter [T]: its zero value
    ([var zero T]), the dynamic type [reflect.TypeOf] reports for a value
    converted to [any] ([None] for a nil interface value), the default
    adapter [types.DefaultTypeAdapter.NativeToValue] and the assertion
    [val.Value().(T)] ([None] when it faults). *)
Class Native (T : Type) : Type := {
  zero : T;
  reflect_TypeOf : T -> option RType;
  NativeToValue : T -> Val;
  assert_Value : Val -> option T
}.

#[export] Instance Native_string : Native string := {
  zero := EmptyString;
  reflect_TypeOf := fun _ => Some RString;
  NativeToValue := VString;
  assert_Value := fun v => match v with VString s => Some s | _ => None end
}.

(** Go's [int]; [Int.Value()] is an [int64], so the assertion to [int]
    always faults. *)
#[export] Instance Native_int : Native Z := {
  zero := 0;
  reflect_TypeOf := fun _ => Some RInt;
  NativeToValue := VInt;
  assert_Value := fun _ => None
}.

#[export] Instance Native_bool : Native bool := {
  zero := false;
  reflect_TypeOf := fun _ => Some RBool;
  NativeToValue := VBool;
  assert_Value := value_bool
}.

(** An interface type that no value in reach implements (in Go, say,
    [interface{ sealed() }] declared by the application): its one value is
    nil. [reflect.TypeOf] of a nil interface value is nil, the adapter
    makes the null value of it, and no payload of a host value can be
    asserted to it. Every cursor whose element type is an interface type,
    [Value[any]] among them, holds the nil value of that type before its
    first advance. *)
Inductive NilInterface : Type :=
| nil_interface.

#[export] Instance Native_NilInterface : Native NilInterface := {
  zero := nil_interface;
  reflect_TypeOf := fun _ => None;
  NativeToValue := fun _ => VNull;
  assert_Value := fun _ => None
}.

(** ** Outcomes *)

Inductive fault : Type :=
| BadTypeAssertion   (* interface conversion: the value is not of the asserted type *)
| NilDereference     (* method call through a nil interface *)
| NilType.           (* reflect: nil type passed to Type.AssignableTo *)

Inductive outcome (A : Type) : Type :=
| Ret (a : A)
| Panic (f : fault)
| OutOfFuel.

Arguments Ret {A} a.
Arguments Panic {A} f.
Arguments OutOfFuel {A}.

(** ** The cursor *)

(** [type HasNext func() (bool, error)] *)
Definition HasNextFn (P : Type) : Type := P -> (bool * option error) * P.

(** [type Next[T any] func() (T, error)] *)
Definition NextFn (T P : Type) : Type := P -> (T * option error) * P.

(** [type Convert[T any] func(T) ref.Val] *)
Definition ConvertFn (T : Type) : Type := T -> Val.

(** [type Value[T any] struct], with the variables its callbacks capture. *)
Record Value (T P : Type) : Type := mkValue {
  index : Z;
  cur : T;
  hasNext : HasNextFn P;
  next : NextFn T P;
  convert : ConvertFn T;
  env : P
}.

Arguments mkValue {T P}.
Arguments index {T P}.
Arguments cur {T P}.
Arguments hasNext {T P}.
Arguments next {T P}.
Arguments convert {T P}.
Arguments env {T P}.

Section Cursor.

Context {T P : Type} `{Native T}.

(** [func New[T any](hasNext HasNext, next Next[T], convert Convert[T]) *Value[T]];
    a nil callback is [None]; [p] is the initial content of the captured
    variables. *)
Definition New (hasNext : option (HasNextFn P)) (next : option (NextFn T P))
    (convert : option (ConvertFn T)) (p : P) : Value T P :=
  let hasNext :=
    match hasNext with
    | Some f => f
    | None => fun p => ((false, None), p)
    end in
  let next :=
    match next with
    | Some f => f
    | None => fun p => ((zero, Some "no next element"%string), p)
    end in
  let convert :=
    match convert with
    | Some f => f
    | None => fun t => NativeToValue t
    end in
  {| index := -1; cur := zero; hasNext := hasNext; next := next;
     convert := convert; env := p |}.

(** [v.Type().TypeName()]: the dynamic type with the five traits. *)
Definition TypeName : string := "dyn".

(** [func (v *Value[T]) ConvertToNative(typ reflect.Type) (any, error)];
    [typ] is [None] for a nil [reflect.Type]. *)
Definition ConvertToNative (typ : option RType) (v : Value T P)
  : outcome (T + error) :=
  let nativeValue := cur v in
  match reflect_TypeOf nativeValue with
  | None => Panic NilDereference
  | Some src =>
      match typ with
      | None => Panic NilType
      | Some dst =>
          if AssignableTo src dst then Ret (inl nativeValue)
          else Ret (inr ("unable to convert " ++ TypeName ++ " to native type "
                           ++ rtype_Name dst)%string)
      end
  end.

(** [func (ci *Value[T]) Equal(other ref.Val) ref.Val]: [self] is the
    address of the receiver, [other] the address [other] holds when it is
    a [*Value[T]] and [None] for every other operand. *)
Definition Equal (self : nat) (other : option nat) (ci : Value T P) : Val :=
  match other with
  | Some otherValue => VBool (Nat.eqb self otherValue)
  | None => VBool false
  end.

(** [func (ci *Value[T]) Value() any] *)
Definition ValueOf (ci : Value T P) : T := cur ci.

(** [func (ci *Value[T]) Next() ref.Val] *)
Definition Next (ci : Value T P) : Val * Value T P :=
  let '((nxt, err), p) := next ci (env ci) in
  match err with
  | Some e =>
      (NewErr ("error getting next element: " ++ e)%string,
       {| index := index ci; cur := cur ci; hasNext := hasNext ci;
          next := next ci; convert := convert ci; env := p |})
  | None =>
      (convert ci nxt,
       {| index := GoInt.incr (index ci); cur := nxt; hasNext := hasNext ci;
          next := next ci; convert := convert ci; env := p |})
  end.

(** [func (ci *Value[T]) HasNext() ref.Val] *)
Definition HasNext (ci : Value T P) : Val * Value T P :=
  let '((b, err), p) := hasNext ci (env ci) in
  let ci' := {| index := index ci; cur := cur ci; hasNext := hasNext ci;
                next := next ci; convert := convert ci; env := p |} in
  match err with
  | Some e => (NewErr ("error checking for next element: " ++ e)%string, ci')
  | None => (VBool b, ci')
  end.

(** [func (ci *Value[T]) Iterator() traits.Iterator] *)
Definition Iterator (ci : Value T P) : Value T P := ci.

(** The loop of [Get]: [for v.index < keyIndex { ... }] and the return
    that follows it. [fuel] bounds the number of advances. *)
Fixpoint Get_loop (fuel : nat) (keyIndex : Z) (v : Value T P)
  : outcome Val * Value T P :=
  if index v <? keyIndex then
    let '(r, v1) := HasNext v in
    match value_bool r with
    | None => (Panic BadTypeAssertion, v1)
    | Some false =>
        (Ret (NewErr "index out of bounds during iterable access"), v1)
    | Some true =>
        match fuel with
        | O => (OutOfFuel, v1)
        | S fuel' =>
            let '(_, v2) := Next v1 in
            Get_loop fuel' keyIndex v2
        end
    end
  else (Ret (convert v (cur v)), v).

(** [func (v *Value[T]) Get(key ref.Val) ref.Val]. A host integer is an
    [int64]: [VInt n] is read in that range, and [int(keyValue.(int64))]
    leaves an [int64] as it is where [int] has 64 bits. *)
Definition Get (fuel : nat) (key : Val) (v : Value T P)
  : outcome Val * Value T P :=
  match key with
  | VInt keyValue =>
      let keyIndex := GoInt.wrap keyValue in
      if keyIndex <? 0 then (Ret (NewErr "index cannot be negative"), v)
      else if keyIndex <? index v then (Ret (NewErr "index already passed"), v)
      else Get_loop fuel keyIndex v
  | _ =>
      (Ret (NewErr ("invalid key type for iterable: " ++ type_name key
                      ++ ", must be int")%string), v)
  end.

(** The loop of [Size]: [for v.HasNext().Value().(bool) { v.Next(); size++ }]. *)
Fixpoint Size_loop (fuel : nat) (size : Z) (v : Value T P)
  : outcome Val * Value T P :=
  let '(r, v1) := HasNext v in
  match value_bool r with
  | None => (Panic BadTypeAssertion, v1)
  | Some false => (Ret (VInt size), v1)
  | Some true =>
      match fuel with
      | O => (OutOfFuel, v1)
      | S fuel' =>
          let '(_, v2) := Next v1 in
          Size_loop fuel' (GoInt.incr size) v2
      end
  end.

(** [func (v *Value[T]) Size() ref.Val] *)
Definition Size (fuel : nat) (v : Value T P) : outcome Val * Value T P :=
  Size_loop fuel 0 v.

(** [func (v *Value[T]) Contains(val ref.Val) ref.Val] *)
Fixpoint Contains (fuel : nat) (val : Val) (v : Value T P)
  : outcome Val * Value T P :=
  let '(r, v1) := HasNext v in
  match value_bool r with
  | None => (Panic BadTypeAssertion, v1)
  | Some false => (Ret (VBool false), v1)
  | Some true =>
      match fuel with
      | O => (OutOfFuel, v1)
      | S fuel' =>
          let '(e, v2) := Next v1 in
          if is_True (val_equal e val) then (Ret (VBool true), v2)
          else Contains fuel' val v2
      end
  end.

End Cursor.

(** ** Native generators and [iter.Pull] *)

(** A native generator ([iter.Seq[T]]: a routine that calls [yield] once
    per element) is given by the states in which its body parks and by
    [resume]: run the body from a state to its next [yield], giving the
    element and the state it parks in, or [None] when the body returns. *)
Definition Resume (T G : Type) : Type := G -> option (T * G).

(** The generator called directly, [seq(yield)]: the consumer owns a
    state [C] and [yield] answers whether to go on. *)
Fixpoint run_seq {T G C : Type} (resume : Resume T G)
    (yield : T -> C -> bool * C) (fuel : nat) (g : G) (c : C) : outcome C :=
  match resume g with
  | None => Ret c
  | Some (x, g') =>
      match fuel with
      | O => OutOfFuel
      | S fuel' =>
          let '(more, c') := yield x c in
          if more then run_seq resume yield fuel' g' c' else Ret c'
      end
  end.

(** [slices.Collect]'s consumer: append and go on. *)
Definition collect {T : Type} (x : T) (acc : list T) : bool * list T :=
  (true, acc ++ [x]).

(** The coroutine behind [next, stop := iter.Pull(seq)]. *)
Record PullState (G : Type) : Type := mkPull {
  gen : G;
  done : bool
}.

Arguments mkPull {G}.
Arguments gen {G}.
Arguments done {G}.

Section Pull.

Context {T G : Type} `{Native T}.
Variable resume : Resume T G.

(** [next()]: the next element and [true], or the zero value and [false]
    once the sequence is over or was stopped. *)
Definition pull_next (s : PullState G) : (T * bool) * PullState G :=
  if done s then ((zero, false), s)
  else
    match resume (gen s) with
    | Some (x, g') => ((x, true), {| gen := g'; done := false |})
    | None => ((zero, false), {| gen := gen s; done := true |})
    end.

(** [stop()] *)
Definition pull_stop (s : PullState G) : PullState G :=
  {| gen := gen s; done := true |}.

(** The variables the two closures of [FromSeq] share. *)
Record SeqEnv : Type := mkSeqEnv {
  slot : T;                (* var cur T *)
  pull : PullState G       (* next, stop := iter.Pull(seq) *)
}.

(** The closure [hasNext] of [FromSeq]:
    [cur, ok = next(); if !ok { stop() }; return ok, nil]. *)
Definition FromSeq_hasNext : HasNextFn SeqEnv := fun e =>
  let '((c, ok), s) := pull_next (pull e) in
  let s' := if negb ok then pull_stop s else s in
  ((ok, None), {| slot := c; pull := s' |}).

(** The closure [getNext] of [FromSeq]: [return cur, nil]. *)
Definition FromSeq_getNext : NextFn T SeqEnv := fun e =>
  ((slot e, None), e).

(** [func FromSeq[T any](seq iter.Seq[T], convert Convert[T]) *Value[T]];
    [seq] is the state in which the generator starts. *)
Definition FromSeq (seq : G) (convert : option (ConvertFn T)) : Value T SeqEnv :=
  New (Some FromSeq_hasNext) (Some FromSeq_getNext) convert
      {| slot := zero; pull := {| gen := seq; done := false |} |}.

End Pull.

Arguments SeqEnv T G : clear implicits.
Arguments mkSeqEnv {T G}.
Arguments slot {T G}.
Arguments pull {T G}.

(** ** The exporter *)

(** A [ref.Val] handed to [AsSeq]: plain data, or a cursor (shown with its
    current content), which is the one value here with the
    [traits.Iterator] capability. *)
Inductive RefVal (T P : Type) : Type :=
| RData (d : Val)
| RCursor (ci : Value T P).

Arguments RData {T P} d.
Arguments RCursor {T P} ci.

Section Exporter.

Context {T P : Type} `{Native T}.
Context {U : Type} `{Native U}.
Context {C : Type}.

(** The body of the generator [AsSeq] returns, for an iterator. *)
Fixpoint AsSeq_loop (convert : Val -> option U) (yield : U -> C -> bool * C)
    (fuel : nat) (iterVal : Value T P) (c : C)
  : outcome unit * Value T P * C :=
  let hasNext (it : Value T P) : (bool * option error) * Value T P :=
    let '(rv, it') := HasNext it in
    ((sprint_is_true rv, None), it') in
  let getNext (it : Value T P) : option (U * option error) * Value T P :=
    let '(e, it') := Next it in
    (match convert e with
     | Some t => Some (t, None)
     | None => None
     end, it') in
  let '((ok, err), it1) := hasNext iterVal in
  match err with
  | Some _ => (Ret tt, it1, c)
  | None =>
      if negb ok then (Ret tt, it1, c)
      else
        match fuel with
        | O => (OutOfFuel, it1, c)
        | S fuel' =>
            let '(r, it2) := getNext it1 in
            match r with
            | None => (Panic BadTypeAssertion, it2, c)
            | Some (_, Some _) => (Ret tt, it2, c)
            | Some (t, None) =>
                let '(more, c') := yield t c in
                if negb more then (Ret tt, it2, c')
                else AsSeq_loop convert yield fuel' it2 c'
            end
        end
  end.

(** [func AsSeq[T any](val ref.Val, convert func(ref.Val) T) iter.Seq[T]]:
    the generator returned, applied to [yield]. It gives the outcome, the
    value as the run leaves it and the consumer's state. A conversion that
    faults is [None]. *)
Definition AsSeq (val : RefVal T P) (convert : option (Val -> option U))
    (yield : U -> C -> bool * C) (fuel : nat) (c : C)
  : outcome unit * RefVal T P * C :=
  let convert :=
    match convert with
    | Some f => f
    | None => fun val => assert_Value val
    end in
  match val with
  | RData d => (Ret tt, RData d, c)
  | RCursor iterVal =>
      let '(r, it, c') := AsSeq_loop convert yield fuel iterVal c in
      (r, RCursor it, c')
  end.

End Exporter.

(** ** Capability operations as data *)

Inductive Op : Type :=
| OpHasNext
| OpNext
| OpGet (key : Val)
| OpSize
| OpContains (val : Val)
| OpConvertToNative (typ : option RType)
| OpConvertToType (typ : string)
| OpEqual (other : option nat)
| OpValue
| OpIterator.

Section Lifetime.

Context {T P : Type} `{Native T}.

(** The cursor after one operation, whatever the operation returned
    (also when it faulted, and as far as it got when the bound on its
    loop was reached). *)
Definition exec (op : Op) (fuel : nat) (v : Value T P) : Value T P :=
  match op with
  | OpHasNext => snd (HasNext v)
  | OpNext => snd (Next v)
  | OpGet key => snd (Get fuel key v)
  | OpSize => snd (Size fuel v)
  | OpContains val => snd (Contains fuel val v)
  | OpConvertToNative _ => v
  | OpConvertToType _ => v
  | OpEqual _ => v
  | OpValue => v
  | OpIterator => Iterator v
  end.

(** The cursor after each operation of a run, in order. *)
Fixpoint trace (ops : list (Op * nat)) (v : Value T P) : list (Value T P) :=
  match ops with
  | [] => []
  | (op, fuel) :: rest =>
      let v' := exec op fuel v in
      v' :: trace rest v'
  end.

(** How many times an operation may increment [index] without a bound of
    its own: [Next] once, the loops of [Size] and [Contains] once per
    iteration. [Get] stops at its key and the others do not advance. *)
Definition advances (op : Op) (fuel : nat) : Z :=
  match op with
  | OpNext => 1
  | OpSize => Z.of_nat fuel
  | OpContains _ => Z.of_nat fuel
  | _ => 0
  end.

(** No increment of the run takes [index] past the largest [int]. *)
Fixpoint fits (ops : list (Op * nat)) (v : Value T P) : Prop :=
  match ops with
  | [] => True
  | (op, fuel) :: rest =>
      index v + advances op fuel <= GoInt.max_int
      /\ fits rest (exec op fuel v)
  end.

End Lifetime.

(** ** Producers *)

Section Producers.

Context {T P : Type}.
Variable hn : HasNextFn P.
Variable nx : NextFn T P.

(** From [p], alternating availability checks (each true) and advances
    (each successful) hands out [xs] and leaves the captured variables
    as [p']. *)
Inductive delivers : P -> list T -> P -> Prop :=
| delivers_nil p : delivers p [] p
| delivers_cons p p1 x p2 xs p' :
    hn p = ((true, None), p1) ->
    nx p1 = ((x, None), p2) ->
    delivers p2 xs p' ->
    delivers p (x :: xs) p'.

(** From [p] on the availability check is false, however often it is
    asked. *)
Definition exhausted (p : P) : Prop :=
  forall n, fst (hn (Nat.iter n (fun q => snd (hn q)) p)) = (false, None).

(** A well-behaved producer of the finite sequence [xs]. *)
Definition produces (p : P) (xs : list T) (p' : P) : Prop :=
  delivers p xs p' /\ exhausted p'.

(** The same callbacks, counting in a second captured variable how often
    each one is invoked. *)
Definition counted_hasNext : HasNextFn (P * (nat * nat)) :=
  fun '(p, (h, n)) => let '(r, p') := hn p in (r, (p', (S h, n))).

Definition counted_next : NextFn T (P * (nat * nat)) :=
  fun '(p, (h, n)) => let '(r, p') := nx p in (r, (p', (h, S n))).

End Producers.

(** An element whose conversion is not host-equal to [val]:
    [convert(x).Equal(val) == types.True] is false. *)
Definition differs {T : Type} (cv : ConvertFn T) (val : Val) (x : T) : Prop :=
  is_True (val_equal (cv x) val) = false.

(** Resumed from [g], the body of a native generator yields [xs] and
    parks in [g']. *)
Inductive resumes {T G : Type} (resume : Resume T G) : G -> list T -> G -> Prop :=
| resumes_nil g : resumes resume g [] g
| resumes_cons g x g' xs g'' :
    resume g = Some (x, g') ->
    resumes resume g' xs g'' ->
    resumes resume g (x :: xs) g''.

(** A finite native generator: its body yields [xs] and returns. *)
Definition yields {T G : Type} (resume : Resume T G) (g : G) (xs : list T) : Prop :=
  exists g', resumes resume g xs g' /\ resume g' = None.

(** ** Producers and generators of the test suite *)

(** A producer over a slice: the captured variable is what is left. *)
Definition slice_hasNext {T : Type} : HasNextFn (list T) :=
  fun l => ((match l with [] => false | _ :: _ => true end, None), l).

Definition slice_next {T : Type} `{Native T} : NextFn T (list T) :=
  fun l =>
    match l with
    | [] => ((zero, Some "no more values"%string), [])
    | x :: r => ((x, None), r)
    end.

(** [slices.Values(s)] *)
Definition slices_Values {T : Type} : Resume T (list T) :=
  fun l =>
    match l with
    | [] => None
    | x :: r => Some (x, r)
    end.

(** [fibSeq]: [a, b := 0, 1; for { if !yield(a) { return }; a, b = b, a+b }] *)
Definition fibSeq : Resume Z (Z * Z) :=
  fun '(a, b) => Some (a, (b, GoInt.wrap (a + b))).

(** A producer whose availability check fails. *)
Definition failing_hasNext : HasNextFn unit :=
  fun u => ((false, Some "backend unavailable"%string), u).

(** A producer with one element whose first advance fails: the captured
    variable counts the advances tried. *)
Definition flaky_hasNext : HasNextFn nat :=
  fun n => ((Nat.leb n 1, None), n).

Definition flaky_next : NextFn string nat :=
  fun n =>
    match n with
    | O => ((EmptyString, Some "timeout"%string), S n)
    | _ => (("late"%string, None), S n)
    end.

(** A producer that never runs out: the natural numbers. *)
Definition naturals_hasNext : HasNextFn nat :=
  fun n => ((true, None), n).

Definition naturals_next : NextFn Z nat :=
  fun n => ((Z.of_nat n, None), S n).

(** From [p], [n] rounds of a true availability check followed by an
    advance, whatever the advance returns, leave the captured variables as
    [p']. *)
Inductive rounds {T P : Type} (hn : HasNextFn P) (nx : NextFn T P)
  : P -> nat -> P -> Prop :=
| rounds_O p : rounds hn nx p O p
| rounds_S p p1 r p2 n p' :
    hn p = ((true, None), p1) ->
    nx p1 = (r, p2) ->
    rounds hn nx p2 n p' ->
    rounds hn nx p (S n) p'.

(** [for _, x := range xs { if !yield(x) { return } }]: a slice pushed at
    a consumer. It gives how many elements the consumer was handed (the one
    it stopped at included) and the state it is left in. *)
Fixpoint push {U C : Type} (yield : U -> C -> bool * C) (xs : list U) (c : C)
  : nat * C :=
  match xs with
  | [] => (O, c)
  | x :: rest =>
      let '(more, c') := yield x c in
      if more then
        let '(n, c'') := push yield rest c' in (S n, c'')
      else (1%nat, c')
  end.

(** * Properties *)

(** ** Machine integers *)

Lemma wrap_in_range z : GoInt.in_range z -> GoInt.wrap z = z.
Proof.
  unfold GoInt.in_range, GoInt.wrap, GoInt.min_int, GoInt.max_int.
  intros Hz. rewrite Z.mod_small; lia.
Qed.

Lemma wrap_range z : GoInt.in_range (GoInt.wrap z).
Proof.
  unfold GoInt.in_range, GoInt.wrap, GoInt.min_int, GoInt.max_int.
  pose proof (Z.mod_pos_bound (z + 2 ^ 63) (2 ^ 64)). lia.
Qed.

Lemma incr_below_max z :
  GoInt.min_int <= z -> z < GoInt.max_int -> GoInt.incr z = z + 1.
Proof.
  intros Hlo Hhi. unfold GoInt.incr. apply wrap_in_range.
  unfold GoInt.in_range in *. unfold GoInt.min_int, GoInt.max_int in *. lia.
Qed.

Lemma incr_changes z : GoInt.incr z <> z.
Proof.
  unfold GoInt.incr, GoInt.wrap. intros E.
  assert (Hm : (z + 1 + 2 ^ 63) mod 2 ^ 64 = z + 2 ^ 63) by lia.
  pose proof (Z.mod_pos_bound (z + 1 + 2 ^ 63) (2 ^ 64)) as Hb.
  assert (Hs : (z + 2 ^ 63) mod 2 ^ 64 = z + 2 ^ 63) by (apply Z.mod_small; lia).
  assert (Hd : ((z + 2 ^ 63) + 1) mod 2 ^ 64 = z + 2 ^ 63)
    by (rewrite <- Hm at 2; f_equal; lia).
  destruct (Z.eq_dec (z + 2 ^ 63) (2 ^ 64 - 1)) as [Ht|Ht].
  - rewrite Ht in Hd. replace (2 ^ 64 - 1 + 1) with (1 * 2 ^ 64) in Hd by lia.
    rewrite Z.mod_mul in Hd; lia.
  - rewrite Z.mod_small in Hd; lia.
Qed.

(** ** The two primitive operations, by cases on what the callback returns *)

Section Primitive.

Context {T P : Type} `{Native T}.
Variables (hn : HasNextFn P) (nx : NextFn T P) (cv : ConvertFn T).

Lemma HasNext_ok i c p b p' :
  hn p = ((b, None), p') ->
  HasNext (mkValue i c hn nx cv p) = (VBool b, mkValue i c hn nx cv p').
Proof. intros E. unfold HasNext. simpl. rewrite E. reflexivity. Qed.

Lemma HasNext_err i c p b e p' :
  hn p = ((b, Some e), p') ->
  HasNext (mkValue i c hn nx cv p)
  = (VErr ("error checking for next element: " ++ e)%string, mkValue i c hn nx cv p').
Proof. intros E. unfold HasNext. simpl. rewrite E. reflexivity. Qed.

Lemma Next_ok i c p x p' :
  nx p = ((x, None), p') ->
  Next (mkValue i c hn nx cv p) = (cv x, mkValue (GoInt.incr i) x hn nx cv p').
Proof. intros E. unfold Next. simpl. rewrite E. reflexivity. Qed.

Lemma Next_err i c p x e p' :
  nx p = ((x, Some e), p') ->
  Next (mkValue i c hn nx cv p)
  = (VErr ("error getting next element: " ++ e)%string, mkValue i c hn nx cv p').
Proof. intros E. unfold Next. simpl. rewrite E. reflexivity. Qed.

(** One unfolding of each loop. *)
Lemma Get_loop_eq fuel k (v : Value T P) :
  Get_loop fuel k v =
  if index v <? k then
    let '(r, v1) := HasNext v in
    match value_bool r with
    | None => (Panic BadTypeAssertion, v1)
    | Some false =>
        (Ret (NewErr "index out of bounds during iterable access"), v1)
    | Some true =>
        match fuel with
        | O => (OutOfFuel, v1)
        | S fuel' => let '(_, v2) := Next v1 in Get_loop fuel' k v2
        end
    end
  else (Ret (convert v (cur v)), v).
Proof. destruct fuel; reflexivity. Qed.

Lemma Size_loop_eq fuel size (v : Value T P) :
  Size_loop fuel size v =
  let '(r, v1) := HasNext v in
  match value_bool r with
  | None => (Panic BadTypeAssertion, v1)
  | Some false => (Ret (VInt size), v1)
  | Some true =>
      match fuel with
      | O => (OutOfFuel, v1)
      | S fuel' => let '(_, v2) := Next v1 in Size_loop fuel' (GoInt.incr size) v2
      end
  end.
Proof. destruct fuel; reflexivity. Qed.

Lemma Contains_eq fuel val (v : Value T P) :
  Contains fuel val v =
  let '(r, v1) := HasNext v in
  match value_bool r with
  | None => (Panic BadTypeAssertion, v1)
  | Some false => (Ret (VBool false), v1)
  | Some true =>
      match fuel with
      | O => (OutOfFuel, v1)
      | S fuel' =>
          let '(e, v2) := Next v1 in
          if is_True (val_equal e val) then (Ret (VBool true), v2)
          else Contains fuel' val v2
      end
  end.
Proof. destruct fuel; reflexivity. Qed.

(** ** Well-behaved producers *)

Lemma delivers_app p xs ys p' :
  delivers hn nx p (xs ++ ys) p' <->
  exists q, delivers hn nx p xs q /\ delivers hn nx q ys p'.
Proof.
  revert p. induction xs as [|x xs IH]; intros p; simpl.
  - split.
    + intros D. exists p. split; [constructor | exact D].
    + intros (q & D1 & D2). inversion D1; subst. exact D2.
  - split.
    + intros D. inversion D as [|? p1 ? p2 ? ? E1 E2 D']; subst.
      apply IH in D'. destruct D' as (q & D1 & D2).
      exists q. split; [econstructor; eassumption | exact D2].
    + intros (q & D1 & D2).
      inversion D1 as [|? p1 ? p2 ? ? E1 E2 D']; subst.
      econstructor; try eassumption. apply IH. exists q. split; assumption.
Qed.

Lemma delivers_functional p xs p1 p2 :
  delivers hn nx p xs p1 -> delivers hn nx p xs p2 -> p1 = p2.
Proof.
  intros D1. revert p2. induction D1 as [|p q x q' xs p' E1 E2 D IH]; intros p2 D2.
  - inversion D2; subst; reflexivity.
  - inversion D2 as [|? r ? r' ? ? F1 F2 D']; subst.
    rewrite E1 in F1. inversion F1; subst.
    rewrite E2 in F2. inversion F2; subst.
    apply IH. exact D'.
Qed.

Lemma exhausted_now p : exhausted hn p -> fst (hn p) = (false, None).
Proof. intros E. exact (E O). Qed.

Lemma exhausted_step p : exhausted hn p -> exhausted hn (snd (hn p)).
Proof.
  intros E n. specialize (E (S n)).
  rewrite <- E. f_equal. f_equal.
  clear E. induction n as [|n IH]; simpl.
  - reflexivity.
  - rewrite IH. reflexivity.
Qed.

Lemma HasNext_exhausted i c p :
  exhausted hn p ->
  HasNext (mkValue i c hn nx cv p)
  = (VBool false, mkValue i c hn nx cv (snd (hn p))).
Proof.
  intros E. apply exhausted_now in E.
  destruct (hn p) as [r p'] eqn:Ep. simpl in E. subst r.
  apply HasNext_ok. exact Ep.
Qed.

End Primitive.

(** ** The loops over a well-behaved producer *)

Lemma last_cons {A : Type} (x : A) (xs : list A) (d : A) :
  last (x :: xs) d = last xs x.
Proof.
  revert x d. induction xs as [|y ys IH]; intros x d.
  - reflexivity.
  - change (last (x :: y :: ys) d) with (last (y :: ys) d).
    rewrite (IH y d), (IH y x). reflexivity.
Qed.

Lemma iter_incr (n : nat) (i : Z) :
  GoInt.min_int <= i -> i + Z.of_nat n <= GoInt.max_int ->
  Nat.iter n GoInt.incr i = i + Z.of_nat n.
Proof.
  revert i. induction n as [|n IH]; intros i Hlo Hhi.
  - simpl. lia.
  - rewrite Nat.iter_succ_r, IH.
    + rewrite incr_below_max; lia.
    + rewrite incr_below_max; lia.
    + rewrite incr_below_max; lia.
Qed.

Section Loops.

Context {T P : Type} `{Native T}.
Variables (hn : HasNextFn P) (nx : NextFn T P) (cv : ConvertFn T).

Let mk (i : Z) (c : T) (p : P) : Value T P := mkValue i c hn nx cv p.

(** [Get]'s loop walks a delivered prefix up to its key. *)
Lemma Get_loop_delivers p xs p' :
  delivers hn nx p xs p' ->
  forall i c fuel,
    GoInt.min_int <= i ->
    i + Z.of_nat (List.length xs) <= GoInt.max_int ->
    (List.length xs <= fuel)%nat ->
    Get_loop fuel (i + Z.of_nat (List.length xs)) (mk i c p)
    = (Ret (cv (last xs c)), mk (i + Z.of_nat (List.length xs)) (last xs c) p').
Proof.
  induction 1 as [p|p p1 x p2 xs p' E1 E2 D IH]; intros i c fuel Hlo Hhi Hfuel.
  - rewrite Get_loop_eq. simpl.
    replace (i + 0) with i by lia. rewrite Z.ltb_irrefl. reflexivity.
  - rewrite Get_loop_eq. cbn [List.length] in *. cbn [index mk].
    replace (i <? i + Z.of_nat (S (List.length xs))) with true
      by (symmetry; apply Z.ltb_lt; lia).
    unfold mk. rewrite (HasNext_ok hn nx cv i c p true p1 E1). cbn [value_bool].
    destruct fuel as [|fuel]; [lia|].
    rewrite (Next_ok hn nx cv i c p1 x p2 E2).
    rewrite incr_below_max by lia.
    rewrite last_cons.
    replace (i + Z.of_nat (S (List.length xs))) with (i + 1 + Z.of_nat (List.length xs)) by lia.
    apply IH; lia.
Qed.

(** [Get]'s loop meets exhaustion before its key. *)
Lemma Get_loop_short p xs p' :
  delivers hn nx p xs p' ->
  exhausted hn p' ->
  forall i c fuel k,
    GoInt.min_int <= i ->
    i + Z.of_nat (List.length xs) < k ->
    k <= GoInt.max_int ->
    (List.length xs <= fuel)%nat ->
    Get_loop fuel k (mk i c p)
    = (Ret (VErr "index out of bounds during iterable access"%string),
       mk (i + Z.of_nat (List.length xs)) (last xs c) (snd (hn p'))).
Proof.
  induction 1 as [p|p p1 x p2 xs p' E1 E2 D IH]; intros Hex i c fuel k Hlo Hk Hhi Hfuel.
  - rewrite Get_loop_eq. cbn [List.length index mk] in *.
    replace (i <? k) with true by (symmetry; apply Z.ltb_lt; lia).
    unfold mk. rewrite (HasNext_exhausted hn nx cv i c p Hex). cbn [value_bool].
    replace (i + Z.of_nat 0) with i by lia. reflexivity.
  - rewrite Get_loop_eq. cbn [List.length] in *. cbn [index mk].
    replace (i <? k) with true by (symmetry; apply Z.ltb_lt; lia).
    unfold mk. rewrite (HasNext_ok hn nx cv i c p true p1 E1). cbn [value_bool].
    destruct fuel as [|fuel]; [lia|].
    rewrite (Next_ok hn nx cv i c p1 x p2 E2).
    rewrite incr_below_max by lia.
    rewrite last_cons.
    replace (i + Z.of_nat (S (List.length xs))) with (i + 1 + Z.of_nat (List.length xs)) by lia.
    apply IH; try assumption; lia.
Qed.

(** [Size]'s loop counts a whole finite stream. *)
Lemma Size_loop_produces p xs p' :
  delivers hn nx p xs p' ->
  exhausted hn p' ->
  forall i c size fuel,
    (List.length xs <= fuel)%nat ->
    Size_loop fuel size (mk i c p)
    = (Ret (VInt (Nat.iter (List.length xs) GoInt.incr size)),
       mk (Nat.iter (List.length xs) GoInt.incr i) (last xs c) (snd (hn p'))).
Proof.
  induction 1 as [p|p p1 x p2 xs p' E1 E2 D IH]; intros Hex i c size fuel Hfuel.
  - rewrite Size_loop_eq.
    unfold mk. rewrite (HasNext_exhausted hn nx cv i c p Hex). reflexivity.
  - rewrite Size_loop_eq. cbn [List.length] in *.
    unfold mk. rewrite (HasNext_ok hn nx cv i c p true p1 E1). cbn [value_bool].
    destruct fuel as [|fuel]; [lia|].
    rewrite (Next_ok hn nx cv i c p1 x p2 E2).
    rewrite last_cons, !Nat.iter_succ_r.
    apply IH; [assumption | lia].
Qed.

(** [Contains] finds no match in a whole finite stream. *)
Lemma Contains_absent val p xs p' :
  delivers hn nx p xs p' ->
  exhausted hn p' ->
  Forall (differs cv val) xs ->
  forall i c fuel,
    (List.length xs <= fuel)%nat ->
    Contains fuel val (mk i c p)
    = (Ret (VBool false),
       mk (Nat.iter (List.length xs) GoInt.incr i) (last xs c) (snd (hn p'))).
Proof.
  induction 1 as [p|p p1 x p2 xs p' E1 E2 D IH]; intros Hex Hall i c fuel Hfuel.
  - rewrite Contains_eq.
    unfold mk. rewrite (HasNext_exhausted hn nx cv i c p Hex). reflexivity.
  - rewrite Contains_eq. cbn [List.length] in *.
    unfold mk. rewrite (HasNext_ok hn nx cv i c p true p1 E1). cbn [value_bool].
    destruct fuel as [|fuel]; [lia|].
    rewrite (Next_ok hn nx cv i c p1 x p2 E2).
    inversion Hall as [|? ? Hx Hxs]; subst.
    unfold differs in Hx. rewrite Hx.
    rewrite last_cons, Nat.iter_succ_r.
    apply IH; [assumption | assumption | lia].
Qed.

(** [Contains] stops at the first match. *)
Lemma Contains_present val p pre x p1 :
  delivers hn nx p (pre ++ [x]) p1 ->
  Forall (differs cv val) pre ->
  is_True (val_equal (cv x) val) = true ->
  forall i c fuel,
    (List.length pre < fuel)%nat ->
    Contains fuel val (mk i c p)
    = (Ret (VBool true), mk (Nat.iter (S (List.length pre)) GoInt.incr i) x p1).
Proof.
  revert p. induction pre as [|y pre IH]; intros p D Hall Hx i c fuel Hfuel.
  - simpl in D. inversion D as [|? q ? q' ? ? E1 E2 D']; subst.
    inversion D'; subst.
    rewrite Contains_eq.
    unfold mk. rewrite (HasNext_ok hn nx cv i c p true q E1). cbn [value_bool].
    destruct fuel as [|fuel]; [simpl in Hfuel; lia|].
    rewrite (Next_ok hn nx cv i c q x p1 E2). rewrite Hx. reflexivity.
  - simpl in D. inversion D as [|? q ? q' ? ? E1 E2 D']; subst.
    inversion Hall as [|? ? Hy Hpre]; subst.
    rewrite Contains_eq.
    unfold mk. rewrite (HasNext_ok hn nx cv i c p true q E1). cbn [value_bool].
    destruct fuel as [|fuel]; [simpl in Hfuel; lia|].
    rewrite (Next_ok hn nx cv i c q y q' E2).
    unfold differs in Hy. rewrite Hy.
    cbn [List.length]. rewrite (Nat.iter_succ_r (S (List.length pre))).
    apply IH; [assumption | assumption | assumption | simpl in Hfuel; lia].
Qed.

End Loops.

(** ** Indexed access *)

Lemma last_firstn_nth {A : Type} (xs : list A) (i : nat) (d : A) :
  (i < List.length xs)%nat -> last (firstn (S i) xs) d = nth i xs d.
Proof.
  revert i d. induction xs as [|x xs IH]; intros i d Hi.
  - simpl in Hi. lia.
  - destruct i as [|i].
    + destruct xs; reflexivity.
    + change (firstn (S (S i)) (x :: xs)) with (x :: firstn (S i) xs).
      rewrite last_cons. cbn [nth]. rewrite (IH i x) by (simpl in Hi; lia).
      apply nth_indep. simpl in Hi. lia.
Qed.

Lemma delivers_counted {T P : Type} (hn : HasNextFn P) (nx : NextFn T P) p xs p' :
  delivers hn nx p xs p' ->
  forall h n,
    delivers (counted_hasNext hn) (counted_next nx)
      (p, (h, n)) xs (p', (h + List.length xs, n + List.length xs)%nat).
Proof.
  induction 1 as [p|p p1 x p2 xs p' E1 E2 D IH]; intros h n.
  - simpl. rewrite !Nat.add_0_r. constructor.
  - apply delivers_cons with (p1 := (p1, (S h, n))) (p2 := (p2, (S h, S n))).
    + simpl. rewrite E1. reflexivity.
    + simpl. rewrite E2. reflexivity.
    + cbn [List.length]. rewrite <- !Nat.add_succ_comm. apply IH.
Qed.

Lemma Get_fresh_prefix {T P : Type} `{Native T}
    (hn : HasNextFn P) (nx : NextFn T P) (cv : ConvertFn T)
    (p : P) (xs : list T) (q : P) (i fuel : nat) :
  delivers hn nx p (firstn (S i) xs) q ->
  (i < List.length xs)%nat ->
  Z.of_nat i <= GoInt.max_int ->
  (i < fuel)%nat ->
  Get fuel (VInt (Z.of_nat i)) (New (Some hn) (Some nx) (Some cv) p)
  = (Ret (cv (nth i xs zero)), mkValue (Z.of_nat i) (nth i xs zero) hn nx cv q).
Proof.
  intros D Hi Hmax Hfuel.
  assert (Hlen : List.length (firstn (S i) xs) = S i)
    by (rewrite length_firstn; lia).
  unfold Get, New.
  rewrite wrap_in_range by (unfold GoInt.in_range, GoInt.min_int; lia).
  replace (Z.of_nat i <? 0) with false by (symmetry; apply Z.ltb_ge; lia).
  cbn [index].
  replace (Z.of_nat i <? -1) with false by (symmetry; apply Z.ltb_ge; lia).
  pose proof (Get_loop_delivers hn nx cv p _ q D (-1) zero fuel) as L.
  rewrite Hlen, (last_firstn_nth xs i zero Hi) in L.
  replace (-1 + Z.of_nat (S i)) with (Z.of_nat i) in L by lia.
  apply L; unfold GoInt.min_int; lia.
Qed.

(** C3. On a fresh cursor over a producer whose first [N] availability
    checks and advances hand out [xs] (a finite stream, or the first [N]
    elements of an infinite one), [Get(i)] for [0 <= i < N] returns the
    conversion of the [(i+1)]-th element and leaves the cursor at index [i]
    on that element, the producer exactly where [i+1] advances take it:
    counting the calls, [hasNext] and [next] were each made [i+1] times. *)
Theorem Get_fresh_cursor {T P : Type} `{Native T}
    (hn : HasNextFn P) (nx : NextFn T P) (cv : ConvertFn T)
    (p : P) (xs : list T) (p' : P) (i fuel : nat) :
  delivers hn nx p xs p' ->
  (i < List.length xs)%nat ->
  Z.of_nat i <= GoInt.max_int ->
  (i < fuel)%nat ->
  exists q,
    delivers hn nx p (firstn (S i) xs) q
    /\ Get fuel (VInt (Z.of_nat i)) (New (Some hn) (Some nx) (Some cv) p)
       = (Ret (cv (nth i xs zero)), mkValue (Z.of_nat i) (nth i xs zero) hn nx cv q)
    /\ env (snd (Get fuel (VInt (Z.of_nat i))
                   (New (Some (counted_hasNext hn)) (Some (counted_next nx))
                        (Some cv) (p, (O, O)))))
       = (q, (S i, S i)).
Proof.
  intros D Hi Hmax Hfuel.
  rewrite <- (firstn_skipn (S i) xs) in D.
  apply delivers_app in D. destruct D as (q & D1 & _).
  exists q. split; [exact D1|]. split.
  - apply Get_fresh_prefix; assumption.
  - pose proof (delivers_counted hn nx p _ q D1 O O) as Dc.
    rewrite length_firstn in Dc.
    replace (Nat.min (S i) (List.length xs)) with (S i) in Dc by lia.
    rewrite (Get_fresh_prefix _ _ cv (p, (O, O)) xs _ i fuel Dc Hi Hmax Hfuel).
    reflexivity.
Qed.

Lemma Get_fresh_cursor_witness :
  exists q,
    delivers slice_hasNext slice_next ["test"; "example"; "sample"]%string
             (firstn 2 ["test"; "example"; "sample"]%string) q
    /\ Get 2 (VInt 1)
         (New (Some slice_hasNext) (Some slice_next) (Some VString)
              ["test"; "example"; "sample"]%string)
       = (Ret (VString "example"),
          mkValue 1 "example"%string slice_hasNext slice_next VString q)
    /\ env (snd (Get 2 (VInt 1)
                   (New (Some (counted_hasNext slice_hasNext))
                        (Some (counted_next slice_next)) (Some VString)
                        (["test"; "example"; "sample"]%string, (O, O)))))
       = (q, (2%nat, 2%nat)).
Proof.
  apply (Get_fresh_cursor slice_hasNext slice_next VString
           ["test"; "example"; "sample"]%string
           ["test"; "example"; "sample"]%string [] 1 2).
  - repeat (econstructor; try reflexivity).
  - simpl. lia.
  - unfold GoInt.max_int. simpl. lia.
  - lia.
Defined.

(** The Fibonacci scenario: the eleventh number, and the generator parked
    right after yielding it. *)
Example fibonacci_get_10 :
  fst (Get 11 (VInt 10) (FromSeq fibSeq (0, 1) (Some VInt))) = Ret (VInt 55)
  /\ env (snd (Get 11 (VInt 10) (FromSeq fibSeq (0, 1) (Some VInt))))
     = {| slot := 55; pull := {| gen := (89, 144); done := false |} |}.
Proof. split; vm_compute; reflexivity. Qed.

Lemma Get_not_int {T P : Type} `{Native T} (key : Val) (v : Value T P) (fuel : nat) :
  (forall n, key <> VInt n) ->
  Get fuel key v
  = (Ret (VErr ("invalid key type for iterable: " ++ type_name key
                  ++ ", must be int")%string), v).
Proof.
  intros Hkey. destruct key; try reflexivity.
  exfalso. exact (Hkey n eq_refl).
Qed.

Lemma Get_negative {T P : Type} `{Native T} (k : Z) (v : Value T P) (fuel : nat) :
  GoInt.min_int <= k < 0 ->
  Get fuel (VInt k) v = (Ret (VErr "index cannot be negative"%string), v).
Proof.
  intros Hk. unfold Get.
  rewrite wrap_in_range by (unfold GoInt.in_range, GoInt.max_int; lia).
  replace (k <? 0) with true by (symmetry; apply Z.ltb_lt; lia).
  reflexivity.
Qed.

Lemma Get_passed {T P : Type} `{Native T} (k : Z) (v : Value T P) (fuel : nat) :
  0 <= k <= GoInt.max_int -> k < index v ->
  Get fuel (VInt k) v = (Ret (VErr "index already passed"%string), v).
Proof.
  intros Hk Hlt. unfold Get.
  rewrite wrap_in_range by (unfold GoInt.in_range, GoInt.min_int; lia).
  replace (k <? 0) with false by (symmetry; apply Z.ltb_ge; lia).
  replace (k <? index v) with true by (symmetry; apply Z.ltb_lt; lia).
  reflexivity.
Qed.

Lemma Get_out_of_bounds {T P : Type} `{Native T}
    (hn : HasNextFn P) (nx : NextFn T P) (cv : ConvertFn T)
    (p : P) (xs : list T) (p' : P) (k : Z) (fuel : nat) :
  produces hn nx p xs p' ->
  Z.of_nat (List.length xs) <= k <= GoInt.max_int ->
  (List.length xs <= fuel)%nat ->
  Get fuel (VInt k) (New (Some hn) (Some nx) (Some cv) p)
  = (Ret (VErr "index out of bounds during iterable access"%string),
     mkValue (Z.of_nat (List.length xs) - 1) (last xs zero) hn nx cv (snd (hn p'))).
Proof.
  intros [D Hex] Hk Hfuel. unfold Get, New.
  rewrite wrap_in_range by (unfold GoInt.in_range, GoInt.min_int; lia).
  replace (k <? 0) with false by (symmetry; apply Z.ltb_ge; lia).
  cbn [index].
  replace (k <? -1) with false by (symmetry; apply Z.ltb_ge; lia).
  rewrite (Get_loop_short hn nx cv p xs p' D Hex (-1) zero fuel k);
    try (unfold GoInt.min_int; lia).
  replace (-1 + Z.of_nat (List.length xs)) with (Z.of_nat (List.length xs) - 1) by lia.
  reflexivity.
Qed.

(** C4. [Get] validates its key in this order. A key that is not a host
    integer gives the error "invalid key type for iterable: <type>, must be
    int". A negative integer gives "index cannot be negative", whatever the
    cursor's index. A key below the current index gives "index already
    passed"; so [Get(i)] after a [Get(j)] that delivered, with [0 <= i < j],
    fails with that error. And on a producer of [N] elements, [Get(k)] for
    [k >= N] on a fresh cursor gives "index out of bounds during iterable
    access". The first three leave the cursor as it was. *)
Theorem Get_validation {T P : Type} `{Native T} :
  (forall (key : Val) (v : Value T P) (fuel : nat),
      (forall n, key <> VInt n) ->
      Get fuel key v
      = (Ret (VErr ("invalid key type for iterable: " ++ type_name key
                      ++ ", must be int")%string), v))
  /\ (forall (k : Z) (v : Value T P) (fuel : nat),
         GoInt.min_int <= k < 0 ->
         Get fuel (VInt k) v = (Ret (VErr "index cannot be negative"%string), v))
  /\ (forall (k : Z) (v : Value T P) (fuel : nat),
         0 <= k <= GoInt.max_int -> k < index v ->
         Get fuel (VInt k) v = (Ret (VErr "index already passed"%string), v))
  /\ (forall hn nx cv (p : P) (xs : list T) p' (i j fuel fuel' : nat),
         delivers hn nx p xs p' ->
         (i < j < List.length xs)%nat ->
         Z.of_nat j <= GoInt.max_int ->
         (j < fuel)%nat ->
         let first := Get fuel (VInt (Z.of_nat j)) (New (Some hn) (Some nx) (Some cv) p) in
         fst first = Ret (cv (nth j xs zero))
         /\ Get fuel' (VInt (Z.of_nat i)) (snd first)
            = (Ret (VErr "index already passed"%string), snd first))
  /\ (forall hn nx cv (p : P) (xs : list T) p' (k : Z) (fuel : nat),
         produces hn nx p xs p' ->
         Z.of_nat (List.length xs) <= k <= GoInt.max_int ->
         (List.length xs <= fuel)%nat ->
         fst (Get fuel (VInt k) (New (Some hn) (Some nx) (Some cv) p))
         = Ret (VErr "index out of bounds during iterable access"%string)).
Proof.
  split; [|split; [|split; [|split]]].
  - intros. apply Get_not_int. assumption.
  - intros. apply Get_negative. assumption.
  - intros. apply Get_passed; assumption.
  - intros hn nx cv p xs p' i j fuel fuel' D Hij Hmax Hfuel first.
    assert (Dq : exists q, delivers hn nx p (firstn (S j) xs) q).
    { rewrite <- (firstn_skipn (S j) xs) in D.
      apply delivers_app in D. destruct D as (q & D1 & _). exists q. exact D1. }
    destruct Dq as (q & Dq).
    unfold first.
    rewrite (Get_fresh_prefix hn nx cv p xs q j fuel Dq) by lia.
    split; [reflexivity|].
    apply Get_passed; cbn [snd index]; lia.
  - intros hn nx cv p xs p' k fuel Hp Hk Hfuel.
    rewrite (Get_out_of_bounds hn nx cv p xs p' k fuel Hp Hk Hfuel). reflexivity.
Qed.

Lemma slice_exhausted {T : Type} : exhausted (@slice_hasNext T) [].
Proof.
  intros n. induction n as [|n IH].
  - reflexivity.
  - simpl. exact IH.
Qed.

Lemma Get_validation_witness :
  let fresh := New (Some slice_hasNext) (Some slice_next) (Some VString)
                   ["test"; "example"; "sample"]%string in
  Get 0 (VString "0") fresh
  = (Ret (VErr "invalid key type for iterable: string, must be int"%string), fresh)
  /\ Get 0 (VInt (-1)) fresh = (Ret (VErr "index cannot be negative"%string), fresh)
  /\ Get 0 (VInt 0) (snd (Get 3 (VInt 2) fresh))
     = (Ret (VErr "index already passed"%string), snd (Get 3 (VInt 2) fresh))
  /\ (fst (Get 3 (VInt 2) fresh) = Ret (VString "sample")
      /\ Get 0 (VInt 1) (snd (Get 3 (VInt 2) fresh))
         = (Ret (VErr "index already passed"%string), snd (Get 3 (VInt 2) fresh)))
  /\ fst (Get 3 (VInt 3) fresh)
     = Ret (VErr "index out of bounds during iterable access"%string).
Proof.
  intros fresh.
  destruct (@Get_validation string (list string) _) as (A & B & C & D & E).
  split; [|split; [|split; [|split]]].
  - apply A. intros n. discriminate.
  - apply B. unfold GoInt.min_int. lia.
  - apply C.
    + unfold GoInt.max_int. lia.
    + vm_compute. reflexivity.
  - apply (D slice_hasNext slice_next VString
             ["test"; "example"; "sample"]%string
             ["test"; "example"; "sample"]%string [] 1%nat 2%nat 3%nat 0%nat).
    + repeat (econstructor; try reflexivity).
    + simpl. lia.
    + unfold GoInt.max_int. simpl. lia.
    + lia.
  - apply (E slice_hasNext slice_next VString
             ["test"; "example"; "sample"]%string
             ["test"; "example"; "sample"]%string [] 3 3%nat).
    + split; [repeat (econstructor; try reflexivity) | apply slice_exhausted].
    + unfold GoInt.max_int. simpl. lia.
    + simpl. lia.
Defined.

(** ** Advancing *)

(** C8. [Next] invokes the [next] callback once (the captured variables
    are the ones that call leaves). When the callback reports an error the
    result is the host error "error getting next element: <error>" and
    neither [index] nor the current element changes. When it succeeds the
    element becomes the current one, [index] is incremented (by one, short
    of the largest [int]) and the result is the conversion of the new
    current element. The change is made in the cursor itself, so it is
    there whether or not the caller looks at the result: the cursor after a
    successful [Next] is never the cursor before it. *)
Theorem Next_advances {T P : Type} `{Native T} (ci : Value T P) :
  let '((x, err), p) := next ci (env ci) in
  let '(r, ci') := Next ci in
  env ci' = p
  /\ hasNext ci' = hasNext ci /\ next ci' = next ci /\ convert ci' = convert ci
  /\ match err with
     | Some e =>
         r = VErr ("error getting next element: " ++ e)%string
         /\ index ci' = index ci
         /\ cur ci' = cur ci
     | None =>
         cur ci' = x
         /\ index ci' = GoInt.incr (index ci)
         /\ (GoInt.min_int <= index ci < GoInt.max_int -> index ci' = index ci + 1)
         /\ r = convert ci' (cur ci')
         /\ ci' <> ci
         /\ exec OpNext 0 ci = ci'
     end.
Proof.
  unfold exec, Next.
  destruct (next ci (env ci)) as [[x [e|]] p]; cbn.
  - repeat split; reflexivity.
  - repeat split; try reflexivity.
    + intros [Hlo Hhi]. apply incr_below_max; assumption.
    + intros E. apply (f_equal index) in E. cbn in E.
      exact (incr_changes _ E).
Qed.

Lemma Next_advances_witness :
  let ci := New (Some slice_hasNext) (Some slice_next) (Some VString)
                ["test"; "example"]%string in
  cur (snd (Next ci)) = "test"%string
  /\ index (snd (Next ci)) = index ci + 1
  /\ fst (Next ci) = VString "test"
  /\ snd (Next ci) <> ci.
Proof.
  intros ci.
  destruct (Next_advances ci) as (_ & _ & _ & _ & Hcur & _ & Hplus & Hres & Hneq & _).
  split; [exact Hcur|]. split; [|split; [exact Hres | exact Hneq]].
  apply Hplus. vm_compute. split; [discriminate | reflexivity].
Defined.

Example Next_on_slice :
  Next (New (Some slice_hasNext) (Some slice_next) (Some VString)
            ["test"; "example"]%string)
  = (VString "test",
     mkValue 0 "test"%string slice_hasNext slice_next VString ["example"%string]).
Proof. reflexivity. Qed.

Example Next_default_callback :
  Next (New None None (Some VString) tt)
  = (VErr "error getting next element: no next element"%string,
     New None None (Some VString) tt).
Proof. reflexivity. Qed.

(** ** Reading the current element again *)

Lemma Get_current {T P : Type} `{Native T} (v : Value T P) (fuel : nat) :
  0 <= index v <= GoInt.max_int ->
  Get fuel (VInt (index v)) v = (Ret (convert v (cur v)), v).
Proof.
  intros Hi. unfold Get.
  rewrite wrap_in_range by (unfold GoInt.in_range, GoInt.min_int; lia).
  replace (index v <? 0) with false by (symmetry; apply Z.ltb_ge; lia).
  rewrite Z.ltb_irrefl, Get_loop_eq, Z.ltb_irrefl. reflexivity.
Qed.

Lemma iter_fixed {A : Type} (f : A -> A) (a : A) (n : nat) :
  f a = a -> Nat.iter n f a = a.
Proof.
  intros E. induction n as [|n IH]; simpl.
  - reflexivity.
  - rewrite IH. exact E.
Qed.

(** ** Draining: [Size] and [Contains] *)

Section Drained.

Context {T P : Type} `{Native T}.
Variables (hn : HasNextFn P) (nx : NextFn T P) (cv : ConvertFn T).

Lemma HasNext_iter_exhausted i c n :
  forall p,
    exhausted hn p ->
    Nat.iter n (fun s => snd (HasNext s)) (mkValue i c hn nx cv p)
    = mkValue i c hn nx cv (Nat.iter n (fun q => snd (hn q)) p).
Proof.
  induction n as [|n IH]; intros p Hex.
  - reflexivity.
  - rewrite !Nat.iter_succ_r.
    rewrite (HasNext_exhausted hn nx cv i c p Hex). cbn [snd].
    apply IH. apply exhausted_step. exact Hex.
Qed.

Lemma HasNext_forever_false i c p n :
  exhausted hn p ->
  fst (HasNext (Nat.iter n (fun s => snd (HasNext s)) (mkValue i c hn nx cv p)))
  = VBool false.
Proof.
  intros Hex. rewrite (HasNext_iter_exhausted i c n p Hex).
  specialize (Hex n).
  destruct (hn (Nat.iter n (fun q => snd (hn q)) p)) as [r p1] eqn:E.
  simpl in Hex. subst r.
  rewrite (HasNext_ok hn nx cv i c _ false p1 E). reflexivity.
Qed.

Lemma counted_iter n :
  forall p c,
    fst (Nat.iter n (fun q => snd (counted_hasNext hn q)) (p, c))
    = Nat.iter n (fun q => snd (hn q)) p.
Proof.
  induction n as [|n IH]; intros p c.
  - reflexivity.
  - rewrite !Nat.iter_succ_r. destruct c as [h k]. simpl.
    destruct (hn p) as [r p1]. simpl. apply IH.
Qed.

Lemma exhausted_counted p c :
  exhausted hn p -> exhausted (counted_hasNext hn) (p, c).
Proof.
  intros Hex n. specialize (Hex n).
  pose proof (counted_iter n p c) as E.
  destruct (Nat.iter n (fun q => snd (counted_hasNext hn q)) (p, c)) as [p1 [h k]].
  simpl in E. subst p1. simpl.
  destruct (hn (Nat.iter n (fun q => snd (hn q)) p)) as [r p2].
  simpl in *. exact Hex.
Qed.

Lemma Size_fresh p xs p' fuel :
  produces hn nx p xs p' ->
  Z.of_nat (List.length xs) <= GoInt.max_int ->
  (List.length xs <= fuel)%nat ->
  Size fuel (New (Some hn) (Some nx) (Some cv) p)
  = (Ret (VInt (Z.of_nat (List.length xs))),
     mkValue (Z.of_nat (List.length xs) - 1) (last xs zero) hn nx cv (snd (hn p'))).
Proof.
  intros [D Hex] Hmax Hfuel. unfold Size, New.
  rewrite (Size_loop_produces hn nx cv p xs p' D Hex (-1) zero 0 fuel Hfuel).
  rewrite !iter_incr by (unfold GoInt.min_int; lia).
  replace (-1 + Z.of_nat (List.length xs)) with (Z.of_nat (List.length xs) - 1) by lia.
  reflexivity.
Qed.

Lemma first_match (f : T -> bool) (xs : list T) :
  Forall (fun x => f x = false) xs
  \/ exists pre x post,
      xs = pre ++ x :: post /\ Forall (fun x => f x = false) pre /\ f x = true.
Proof.
  induction xs as [|a xs IH].
  - left. constructor.
  - destruct (f a) eqn:Ea.
    + right. exists [], a, xs. repeat split; [constructor | exact Ea].
    + destruct IH as [Hall | (pre & x & post & E & Hpre & Hx)].
      * left. constructor; assumption.
      * right. exists (a :: pre), x, post. subst xs.
        repeat split; [constructor; assumption | exact Hx].
Qed.

Lemma existsb_none (f : T -> bool) (xs : list T) :
  Forall (fun x => f x = false) xs -> existsb f xs = false.
Proof.
  induction 1 as [|a xs Ha _ IH]; simpl.
  - reflexivity.
  - rewrite Ha, IH. reflexivity.
Qed.

Lemma existsb_some (f : T -> bool) (pre : list T) (x : T) (post : list T) :
  f x = true -> existsb f (pre ++ x :: post) = true.
Proof.
  intros Hx. rewrite existsb_app. simpl. rewrite Hx.
  rewrite orb_true_r. reflexivity.
Qed.

End Drained.

(** C5. On a fresh cursor over a well-behaved producer of [N] elements,
    [Size] returns [N], having advanced through the whole stream ([next]
    was called [N] times, the current element is the last one, at index
    [N-1]) and leaves the cursor exhausted: the next availability check is
    false, and so is every later one. *)
Theorem Size_drains {T P : Type} `{Native T}
    (hn : HasNextFn P) (nx : NextFn T P) (cv : ConvertFn T)
    (p : P) (xs : list T) (p' : P) (fuel : nat) :
  produces hn nx p xs p' ->
  Z.of_nat (List.length xs) <= GoInt.max_int ->
  (List.length xs <= fuel)%nat ->
  let N := List.length xs in
  let '(r, v') := Size fuel (New (Some hn) (Some nx) (Some cv) p) in
  r = Ret (VInt (Z.of_nat N))
  /\ v' = mkValue (Z.of_nat N - 1) (last xs zero) hn nx cv (snd (hn p'))
  /\ exhausted hn (env v')
  /\ fst (HasNext v') = VBool false
  /\ (forall n, fst (HasNext (Nat.iter n (fun s => snd (HasNext s)) v')) = VBool false)
  /\ snd (env (snd (Size fuel (New (Some (counted_hasNext hn)) (Some (counted_next nx))
                                   (Some cv) (p, (O, O))))))
     = (S N, N).
Proof.
  intros Hp Hmax Hfuel N.
  rewrite (Size_fresh hn nx cv p xs p' fuel Hp Hmax Hfuel).
  destruct Hp as [D Hex].
  assert (Hex' : exhausted hn (snd (hn p'))) by (apply exhausted_step; exact Hex).
  split; [reflexivity|]. split; [reflexivity|]. split; [exact Hex'|].
  split; [exact (HasNext_forever_false hn nx cv _ _ _ O Hex')|].
  split; [intros n; exact (HasNext_forever_false hn nx cv _ _ _ n Hex')|].
  assert (Hc : produces (counted_hasNext hn) (counted_next nx) (p, (O, O)) xs
                        (p', (List.length xs, List.length xs))).
  { split.
    - exact (delivers_counted hn nx p xs p' D O O).
    - apply exhausted_counted. exact Hex. }
  rewrite (Size_fresh _ _ cv _ xs _ fuel Hc Hmax Hfuel).
  cbn [snd env]. unfold counted_hasNext.
  destruct (hn p') as [r q]. reflexivity.
Qed.

Lemma Size_drains_witness :
  let '(r, v') := Size 3 (New (Some slice_hasNext) (Some slice_next) (Some VString)
                              ["test"; "example"; "sample"]%string) in
  r = Ret (VInt 3)
  /\ v' = mkValue 2 "sample"%string slice_hasNext slice_next VString []
  /\ exhausted slice_hasNext (env v')
  /\ fst (HasNext v') = VBool false
  /\ (forall n, fst (HasNext (Nat.iter n (fun s => snd (HasNext s)) v')) = VBool false)
  /\ snd (env (snd (Size 3 (New (Some (counted_hasNext slice_hasNext))
                                (Some (counted_next slice_next)) (Some VString)
                                (["test"; "example"; "sample"]%string, (O, O))))))
     = (4%nat, 3%nat).
Proof.
  apply (Size_drains slice_hasNext slice_next VString
           ["test"; "example"; "sample"]%string
           ["test"; "example"; "sample"]%string [] 3).
  - split; [repeat (econstructor; try reflexivity) | apply slice_exhausted].
  - unfold GoInt.max_int. simpl. lia.
  - simpl. lia.
Defined.

(** C6. From any cursor over a well-behaved producer, [Contains(val)]
    answers whether the conversion of some element of the part of the
    stream not yet consumed is host-equal to [val]. If there is one, it
    returns true having consumed the elements up to and including the
    first such element, which is then the current one; the elements after
    it are still to come. If there is none in a finite stream, it returns
    false and leaves the producer exhausted. *)
Theorem Contains_remaining {T P : Type} `{Native T}
    (hn : HasNextFn P) (nx : NextFn T P) (cv : ConvertFn T)
    (val : Val) (i : Z) (c : T) :
  (forall p pre x post p' fuel,
      delivers hn nx p (pre ++ x :: post) p' ->
      Forall (differs cv val) pre ->
      is_True (val_equal (cv x) val) = true ->
      (List.length pre < fuel)%nat ->
      exists q,
        Contains fuel val (mkValue i c hn nx cv p)
        = (Ret (VBool true),
           mkValue (Nat.iter (S (List.length pre)) GoInt.incr i) x hn nx cv q)
        /\ delivers hn nx p (pre ++ [x]) q
        /\ delivers hn nx q post p')
  /\ (forall p xs p' fuel,
         produces hn nx p xs p' ->
         Forall (differs cv val) xs ->
         (List.length xs <= fuel)%nat ->
         Contains fuel val (mkValue i c hn nx cv p)
         = (Ret (VBool false),
            mkValue (Nat.iter (List.length xs) GoInt.incr i) (last xs c) hn nx cv
                    (snd (hn p')))
         /\ exhausted hn (snd (hn p')))
  /\ (forall p xs p' fuel,
         produces hn nx p xs p' ->
         (List.length xs <= fuel)%nat ->
         fst (Contains fuel val (mkValue i c hn nx cv p))
         = Ret (VBool (existsb (fun x => is_True (val_equal (cv x) val)) xs))).
Proof.
  assert (Hfound : forall p pre x post p' fuel,
      delivers hn nx p (pre ++ x :: post) p' ->
      Forall (differs cv val) pre ->
      is_True (val_equal (cv x) val) = true ->
      (List.length pre < fuel)%nat ->
      exists q,
        Contains fuel val (mkValue i c hn nx cv p)
        = (Ret (VBool true),
           mkValue (Nat.iter (S (List.length pre)) GoInt.incr i) x hn nx cv q)
        /\ delivers hn nx p (pre ++ [x]) q
        /\ delivers hn nx q post p').
  { intros p pre x post p' fuel D Hpre Hx Hfuel.
    change (pre ++ x :: post) with (pre ++ [x] ++ post) in D.
    rewrite app_assoc in D. apply delivers_app in D.
    destruct D as (q & D1 & D2). exists q.
    split; [|split; assumption].
    apply Contains_present; assumption. }
  split; [exact Hfound|]. split.
  - intros p xs p' fuel [D Hex] Hall Hfuel. split.
    + apply Contains_absent; assumption.
    + apply exhausted_step. exact Hex.
  - intros p xs p' fuel [D Hex] Hfuel.
    destruct (first_match (fun x => is_True (val_equal (cv x) val)) xs)
      as [Hall | (pre & x & post & E & Hpre & Hx)].
    + rewrite (Contains_absent hn nx cv val p xs p' D Hex Hall i c fuel Hfuel).
      rewrite existsb_none by exact Hall. reflexivity.
    + subst xs.
      assert (Hlt : (List.length pre < fuel)%nat).
      { rewrite length_app in Hfuel. simpl in Hfuel. lia. }
      destruct (Hfound p pre x post p' fuel D Hpre Hx Hlt) as (q & E & _).
      rewrite E, existsb_some by exact Hx. reflexivity.
Qed.

Lemma Contains_remaining_witness :
  let v := New (Some slice_hasNext) (Some slice_next) (Some VString)
               ["test"; "example"; "sample"]%string in
  (exists q,
      Contains 2 (VString "example") v
      = (Ret (VBool true),
         mkValue 1 "example"%string slice_hasNext slice_next VString q)
      /\ delivers slice_hasNext slice_next ["test"; "example"; "sample"]%string
                  ["test"; "example"]%string q
      /\ delivers slice_hasNext slice_next q ["sample"%string] [])
  /\ (Contains 3 (VString "blah") v
      = (Ret (VBool false),
         mkValue 2 "sample"%string slice_hasNext slice_next VString [])
      /\ exhausted slice_hasNext (@nil string))
  /\ fst (Contains 3 (VString "sample") v) = Ret (VBool true).
Proof.
  intros v.
  destruct (Contains_remaining slice_hasNext slice_next VString (VString "example")
              (-1) EmptyString) as (A & _ & _).
  destruct (Contains_remaining slice_hasNext slice_next VString (VString "blah")
              (-1) EmptyString) as (_ & B & _).
  destruct (Contains_remaining slice_hasNext slice_next VString (VString "sample")
              (-1) EmptyString) as (_ & _ & C).
  split; [|split].
  - apply (A ["test"; "example"; "sample"]%string ["test"%string] "example"%string
             ["sample"%string] [] 2%nat).
    + repeat (econstructor; try reflexivity).
    + repeat constructor.
    + reflexivity.
    + simpl. lia.
  - apply (B ["test"; "example"; "sample"]%string
             ["test"; "example"; "sample"]%string [] 3%nat).
    + split; [repeat (econstructor; try reflexivity) | apply slice_exhausted].
    + repeat constructor.
    + simpl. lia.
  - apply (C ["test"; "example"; "sample"]%string
             ["test"; "example"; "sample"]%string [] 3%nat).
    + split; [repeat (econstructor; try reflexivity) | apply slice_exhausted].
    + simpl. lia.
Defined.

(** C10. Once an element was delivered ([index >= 0]), [Get] with the
    current index as key returns the conversion of the current element and
    leaves the cursor, captured variables of the callbacks included,
    exactly as it was: no callback runs (no advance is needed, so a bound
    of zero on the loop is enough, and callbacks that count their calls
    count none). It can be repeated any number of times, and it still
    works once [Size] or [Contains] has drained the stream: the last
    element delivered stays readable at its index. *)
Theorem Get_current_again {T P : Type} `{Native T} :
  (forall (v : Value T P) (fuel : nat),
      0 <= index v <= GoInt.max_int ->
      Get fuel (VInt (index v)) v = (Ret (convert v (cur v)), v))
  /\ (forall (v : Value T P) (n : nat),
         0 <= index v <= GoInt.max_int ->
         let again := fun s => Get 0 (VInt (index s)) s in
         Nat.iter n (fun s => snd (again s)) v = v
         /\ again (Nat.iter n (fun s => snd (again s)) v) = (Ret (convert v (cur v)), v))
  /\ (forall hn nx cv (p : P) (calls : nat * nat) (i : Z) (c : T) (fuel : nat),
         0 <= i <= GoInt.max_int ->
         env (snd (Get fuel (VInt i)
                       (mkValue i c (counted_hasNext hn) (counted_next nx) cv (p, calls))))
         = (p, calls))
  /\ (forall hn nx cv (p : P) (xs : list T) (p' : P) (fuel : nat),
         produces hn nx p xs p' ->
         xs <> [] ->
         Z.of_nat (List.length xs) <= GoInt.max_int ->
         (List.length xs <= fuel)%nat ->
         let v' := snd (Size fuel (New (Some hn) (Some nx) (Some cv) p)) in
         fst (HasNext v') = VBool false
         /\ Get 0 (VInt (Z.of_nat (List.length xs) - 1)) v' = (Ret (cv (last xs zero)), v'))
  /\ (forall hn nx cv (p : P) (xs : list T) (p' : P) (val : Val) (fuel : nat),
         produces hn nx p xs p' ->
         xs <> [] ->
         Forall (differs cv val) xs ->
         Z.of_nat (List.length xs) <= GoInt.max_int ->
         (List.length xs <= fuel)%nat ->
         let v' := snd (Contains fuel val (New (Some hn) (Some nx) (Some cv) p)) in
         fst (HasNext v') = VBool false
         /\ Get 0 (VInt (Z.of_nat (List.length xs) - 1)) v' = (Ret (cv (last xs zero)), v')).
Proof.
  split; [|split; [|split; [|split]]].
  - intros v fuel Hi. apply Get_current. exact Hi.
  - intros v n Hi again.
    assert (E : Nat.iter n (fun s => snd (again s)) v = v).
    { apply iter_fixed. unfold again. rewrite Get_current by exact Hi. reflexivity. }
    split; [exact E|]. rewrite E. unfold again. apply Get_current. exact Hi.
  - intros hn nx cv p calls i c fuel Hi.
    pose proof (Get_current (mkValue i c (counted_hasNext hn) (counted_next nx) cv
                                     (p, calls)) fuel) as G.
    cbn [index] in G. rewrite (G Hi). reflexivity.
  - intros hn nx cv p xs p' fuel Hp Hne Hmax Hfuel v'.
    unfold v'. rewrite (Size_fresh hn nx cv p xs p' fuel Hp Hmax Hfuel). cbn [snd].
    destruct Hp as [D Hex].
    assert (Hlen : (0 < List.length xs)%nat) by (destruct xs; [congruence | simpl; lia]).
    split.
    + apply (HasNext_forever_false hn nx cv _ _ _ O). apply exhausted_step. exact Hex.
    + pose proof (Get_current (mkValue (Z.of_nat (List.length xs) - 1) (last xs zero)
                                       hn nx cv (snd (hn p'))) O) as G.
      cbn [index convert cur] in G. apply G. lia.
  - intros hn nx cv p xs p' val fuel Hp Hne Hall Hmax Hfuel v'.
    destruct Hp as [D Hex].
    assert (Hlen : (0 < List.length xs)%nat) by (destruct xs; [congruence | simpl; lia]).
    unfold v', New.
    rewrite (Contains_absent hn nx cv val p xs p' D Hex Hall (-1) zero fuel Hfuel).
    rewrite iter_incr by (unfold GoInt.min_int; lia). cbn [snd].
    replace (-1 + Z.of_nat (List.length xs)) with (Z.of_nat (List.length xs) - 1) by lia.
    split.
    + apply (HasNext_forever_false hn nx cv _ _ _ O). apply exhausted_step. exact Hex.
    + pose proof (Get_current (mkValue (Z.of_nat (List.length xs) - 1) (last xs zero)
                                       hn nx cv (snd (hn p'))) O) as G.
      cbn [index convert cur] in G. apply G. lia.
Qed.

Lemma Get_current_again_witness :
  let fresh := New (Some slice_hasNext) (Some slice_next) (Some VString)
                   ["test"; "example"; "sample"]%string in
  let v := snd (Get 2 (VInt 1) fresh) in
  Get 0 (VInt 1) v = (Ret (VString "example"), v)
  /\ (Nat.iter 5 (fun s => snd (Get 0 (VInt (index s)) s)) v = v
      /\ Get 0 (VInt (index (Nat.iter 5 (fun s => snd (Get 0 (VInt (index s)) s)) v)))
             (Nat.iter 5 (fun s => snd (Get 0 (VInt (index s)) s)) v)
         = (Ret (VString "example"), v))
  /\ env (snd (Get 0 (VInt 1)
                   (mkValue 1 "example"%string (counted_hasNext slice_hasNext)
                            (counted_next slice_next) VString
                            (["sample"%string], (2%nat, 2%nat)))))
     = (["sample"%string], (2%nat, 2%nat))
  /\ (fst (HasNext (snd (Size 3 fresh))) = VBool false
      /\ Get 0 (VInt 2) (snd (Size 3 fresh))
         = (Ret (VString "sample"), snd (Size 3 fresh)))
  /\ (fst (HasNext (snd (Contains 3 (VString "blah") fresh))) = VBool false
      /\ Get 0 (VInt 2) (snd (Contains 3 (VString "blah") fresh))
         = (Ret (VString "sample"), snd (Contains 3 (VString "blah") fresh))).
Proof.
  intros fresh v.
  destruct (@Get_current_again string (list string) _) as (A & B & N & C & D).
  split; [|split; [|split; [|split]]].
  - apply (A v 0%nat). unfold GoInt.max_int. vm_compute. split; discriminate.
  - apply (B v 5%nat). unfold GoInt.max_int. vm_compute. split; discriminate.
  - apply (N slice_hasNext slice_next VString ["sample"%string] (2%nat, 2%nat) 1
             "example"%string 0%nat).
    unfold GoInt.max_int. lia.
  - apply (C slice_hasNext slice_next VString
             ["test"; "example"; "sample"]%string
             ["test"; "example"; "sample"]%string [] 3%nat).
    + split; [repeat (econstructor; try reflexivity) | apply slice_exhausted].
    + discriminate.
    + unfold GoInt.max_int. simpl. lia.
    + simpl. lia.
  - apply (D slice_hasNext slice_next VString
             ["test"; "example"; "sample"]%string
             ["test"; "example"; "sample"]%string [] (VString "blah") 3%nat).
    + split; [repeat (econstructor; try reflexivity) | apply slice_exhausted].
    + discriminate.
    + repeat constructor.
    + unfold GoInt.max_int. simpl. lia.
    + simpl. lia.
Defined.

(** ** The index over the lifetime of a cursor *)

Section Index.

Context {T P : Type} `{Native T}.

Lemma HasNext_index (v : Value T P) : index (snd (HasNext v)) = index v.
Proof.
  unfold HasNext. destruct (hasNext v (env v)) as [[b [e|]] p]; reflexivity.
Qed.

Lemma Next_index (v : Value T P) :
  index (snd (Next v)) = index v \/ index (snd (Next v)) = GoInt.incr (index v).
Proof.
  unfold Next. destruct (next v (env v)) as [[x [e|]] p]; [left | right]; reflexivity.
Qed.

Lemma Next_index_bounds (v : Value T P) :
  GoInt.min_int <= index v < GoInt.max_int ->
  index v <= index (snd (Next v)) <= index v + 1.
Proof.
  intros Hi. destruct (Next_index v) as [E|E]; rewrite E.
  - lia.
  - rewrite incr_below_max; lia.
Qed.

Lemma Get_loop_index fuel k :
  forall v : Value T P,
    GoInt.min_int <= index v ->
    k <= GoInt.max_int ->
    index v <= index (snd (Get_loop fuel k v)) <= Z.max (index v) k.
Proof.
  induction fuel as [|fuel IH]; intros v Hlo Hk; rewrite Get_loop_eq;
    destruct (Z.ltb_spec (index v) k) as [Hlt|Hge]; try (cbn [snd]; lia);
    pose proof (HasNext_index v) as E1;
    destruct (HasNext v) as [r v1]; cbn [snd] in E1;
    destruct (value_bool r) as [[|]|]; cbn [snd]; try lia.
  pose proof (Next_index_bounds v1) as E2.
  destruct (Next v1) as [e v2]. cbn [snd] in E2.
  specialize (IH v2). lia.
Qed.

Lemma Size_loop_index fuel :
  forall size (v : Value T P),
    GoInt.min_int <= index v ->
    index v + Z.of_nat fuel <= GoInt.max_int ->
    index v <= index (snd (Size_loop fuel size v)) <= index v + Z.of_nat fuel.
Proof.
  induction fuel as [|fuel IH]; intros size v Hlo Hhi; rewrite Size_loop_eq;
    pose proof (HasNext_index v) as E1;
    destruct (HasNext v) as [r v1]; cbn [snd] in E1;
    destruct (value_bool r) as [[|]|]; cbn [snd]; try lia.
  pose proof (Next_index_bounds v1) as E2.
  destruct (Next v1) as [e v2]. cbn [snd] in E2.
  specialize (IH (GoInt.incr size) v2). lia.
Qed.

Lemma Contains_index fuel val :
  forall v : Value T P,
    GoInt.min_int <= index v ->
    index v + Z.of_nat fuel <= GoInt.max_int ->
    index v <= index (snd (Contains fuel val v)) <= index v + Z.of_nat fuel.
Proof.
  induction fuel as [|fuel IH]; intros v Hlo Hhi; rewrite Contains_eq;
    pose proof (HasNext_index v) as E1;
    destruct (HasNext v) as [r v1]; cbn [snd] in E1;
    destruct (value_bool r) as [[|]|]; cbn [snd]; try lia.
  pose proof (Next_index_bounds v1) as E2.
  destruct (Next v1) as [e v2]. cbn [snd] in E2.
  destruct (is_True (val_equal e val)); cbn [snd]; [lia|].
  specialize (IH v2). lia.
Qed.

Lemma Get_index fuel key (v : Value T P) :
  GoInt.in_range (index v) ->
  index v <= index (snd (Get fuel key v)) <= GoInt.max_int.
Proof.
  intros [Hlo Hhi]. unfold Get.
  destruct key; cbn [snd]; try lia.
  pose proof (wrap_range n) as [_ Hw].
  destruct (GoInt.wrap n <? 0); cbn [snd]; try lia.
  destruct (GoInt.wrap n <? index v); cbn [snd]; try lia.
  pose proof (Get_loop_index fuel (GoInt.wrap n) v Hlo Hw). lia.
Qed.

Lemma exec_index op fuel (v : Value T P) :
  GoInt.in_range (index v) ->
  index v + advances op fuel <= GoInt.max_int ->
  index v <= index (exec op fuel v) <= GoInt.max_int.
Proof.
  intros Hr Hfit. pose proof Hr as [Hlo Hhi].
  destruct op; cbn [exec advances] in *; unfold Iterator; try lia.
  - rewrite HasNext_index. lia.
  - pose proof (Next_index_bounds v). lia.
  - apply Get_index. exact Hr.
  - pose proof (Size_loop_index fuel 0 v Hlo Hfit). unfold Size. lia.
  - pose proof (Contains_index fuel val v Hlo Hfit). lia.
Qed.

Lemma trace_sorted ops :
  forall v : Value T P,
    GoInt.in_range (index v) ->
    fits ops v ->
    Sorted Z.le (index v :: map index (trace ops v)).
Proof.
  induction ops as [|[op fuel] ops IH]; intros v Hr Hfits.
  - repeat constructor.
  - destruct Hfits as [Hfit Hrest].
    pose proof (exec_index op fuel v Hr Hfit) as Hstep.
    cbn [trace map]. constructor.
    + apply IH; [|exact Hrest].
      unfold GoInt.in_range in *. lia.
    + constructor. lia.
Qed.

Lemma Get_below_index fuel k (v : Value T P) :
  GoInt.wrap k < index v ->
  exists msg, Get fuel (VInt k) v = (Ret (VErr msg), v).
Proof.
  intros Hlt. unfold Get.
  destruct (GoInt.wrap k <? 0).
  - eexists. reflexivity.
  - replace (GoInt.wrap k <? index v) with true by (symmetry; apply Z.ltb_lt; lia).
    eexists. reflexivity.
Qed.

End Index.

(** C7. A cursor starts at index [-1], and no capability operation lowers
    the index: along every run of operations from a new cursor the indices
    are in non-decreasing order (as long as the count stays within Go's
    [int], which is what [fits] says), each single operation on any cursor
    leaves the index where it was or higher, and [Get] with a key below the
    current index returns an error and touches nothing, so that no element
    is delivered again at a lower index. *)
Theorem index_never_decreases {T P : Type} `{Native T} :
  (forall hn nx cv (p : P), index (New (T := T) hn nx cv p) = -1)
  /\ (forall hn nx cv (p : P) (ops : list (Op * nat)),
         fits ops (New (T := T) hn nx cv p) ->
         StronglySorted Z.le
           (-1 :: map index (trace ops (New (T := T) hn nx cv p))))
  /\ (forall (op : Op) (fuel : nat) (v : Value T P),
         GoInt.in_range (index v) ->
         index v + advances op fuel <= GoInt.max_int ->
         index v <= index (exec op fuel v))
  /\ (forall (k : Z) (fuel : nat) (v : Value T P),
         GoInt.wrap k < index v ->
         exists msg, Get fuel (VInt k) v = (Ret (VErr msg), v)).
Proof.
  split; [|split; [|split]].
  - reflexivity.
  - intros hn nx cv p ops Hfits.
    apply Sorted_StronglySorted.
    + intros x y z. apply Z.le_trans.
    + change (-1) with (index (New (T := T) hn nx cv p)).
      apply trace_sorted; [|exact Hfits].
      unfold GoInt.in_range, GoInt.min_int, GoInt.max_int. cbn [New index]. lia.
  - intros op fuel v Hr Hfit. apply (exec_index op fuel v Hr Hfit).
  - intros k fuel v Hlt. apply Get_below_index. exact Hlt.
Qed.

Lemma index_never_decreases_witness :
  let fresh := New (Some slice_hasNext) (Some slice_next) (Some VString)
                   ["test"; "example"; "sample"]%string in
  let ops := [(OpHasNext, O); (OpGet (VInt 1), 2%nat); (OpGet (VInt 0), 2%nat);
              (OpNext, O); (OpConvertToNative (Some RString), O);
              (OpContains (VString "nowhere"), 4%nat); (OpSize, 4%nat);
              (OpEqual None, O); (OpGet (VInt 2), O)] in
  index fresh = -1
  /\ StronglySorted Z.le (-1 :: map index (trace ops fresh))
  /\ index fresh <= index (exec OpSize 5 fresh)
  /\ exists msg,
       Get 0 (VInt 0) (exec (OpGet (VInt 1)) 2 fresh)
       = (Ret (VErr msg), exec (OpGet (VInt 1)) 2 fresh).
Proof.
  intros fresh ops.
  destruct (@index_never_decreases string (list string) _) as (A & B & C & D).
  split; [|split; [|split]].
  - apply A.
  - apply (B (Some slice_hasNext) (Some slice_next) (Some VString)
             ["test"; "example"; "sample"]%string ops).
    vm_compute. repeat split; discriminate.
  - apply (C OpSize 5%nat fresh).
    + vm_compute. split; discriminate.
    + vm_compute. discriminate.
  - apply (D 0 0%nat (exec (OpGet (VInt 1)) 2 fresh)).
    vm_compute. reflexivity.
Defined.

Example index_trace_on_slice :
  map index
      (trace [(OpHasNext, O); (OpGet (VInt 1), 2%nat); (OpGet (VInt 0), 2%nat);
              (OpNext, O); (OpSize, 4%nat); (OpGet (VInt 2), O)]
             (New (Some slice_hasNext) (Some slice_next) (Some VString)
                  ["test"; "example"; "sample"]%string))
  = [-1; 1; 1; 2; 2; 2].
Proof. reflexivity. Qed.

(** ** Native conversion *)

(** C9, where the code departs from it. [ConvertToNative] has no guard
    for a cursor that has not advanced, and what it does there is not to
    raise a typed error. It calls [AssignableTo] on [reflect.TypeOf] of the
    current element: when that element is a nil interface value, as the
    current element of every cursor of an interface element type is before
    the first advance, [reflect.TypeOf] is nil and the call faults with a
    nil dereference, whatever type is requested. When the element type is
    not an interface type, the zero value is handed out like an element:
    it is returned, with a nil error, for every requested type it is
    assignable to. *)
Theorem ConvertToNative_unguarded {T P : Type} `{Native T} :
  (forall (v : Value T P) (typ : option RType),
      reflect_TypeOf (cur v) = None ->
      ConvertToNative typ v = Panic NilDereference)
  /\ (forall hn nx cv (p : P) (typ : option RType),
         reflect_TypeOf (zero : T) = None ->
         index (New (T := T) hn nx cv p) = -1
         /\ ConvertToNative typ (New (T := T) hn nx cv p) = Panic NilDereference)
  /\ (forall hn nx cv (p : P) (src typ : RType),
         reflect_TypeOf (zero : T) = Some src ->
         AssignableTo src typ = true ->
         index (New (T := T) hn nx cv p) = -1
         /\ ConvertToNative (Some typ) (New (T := T) hn nx cv p) = Ret (inl zero)).
Proof.
  split; [|split].
  - intros v typ Hnil. unfold ConvertToNative. rewrite Hnil. reflexivity.
  - intros hn nx cv p typ Hnil. split; [reflexivity|].
    unfold ConvertToNative, New. cbn [cur]. rewrite Hnil. reflexivity.
  - intros hn nx cv p src typ Hsrc Ha. split; [reflexivity|].
    unfold ConvertToNative, New. cbn [cur]. rewrite Hsrc, Ha. reflexivity.
Qed.

Lemma ConvertToNative_unguarded_witness :
  (ConvertToNative (Some RString)
                   (New None None None tt : Value NilInterface unit)
   = Panic NilDereference
   /\ ConvertToNative (Some REmptyInterface)
                      (New None None None tt : Value NilInterface unit)
      = Panic NilDereference)
  /\ ConvertToNative (Some RString) (New None None None tt : Value string unit)
     = Ret (inl EmptyString).
Proof.
  destruct (@ConvertToNative_unguarded NilInterface unit _) as (A & B & _).
  destruct (@ConvertToNative_unguarded string unit _) as (_ & _ & C).
  split; [split|].
  - apply (A (New None None None tt) (Some RString)). reflexivity.
  - apply (B None None None tt (Some REmptyInterface)). reflexivity.
  - apply (C None None None tt RString RString); reflexivity.
Defined.

(** ** Errors of the producer *)

Section ProducerErrors.

Context {T P : Type} `{Native T}.

Lemma Size_hasNext_error (v : Value T P) b e p' fuel :
  hasNext v (env v) = ((b, Some e), p') ->
  fst (Size fuel v) = Panic BadTypeAssertion.
Proof.
  intros E. unfold Size. rewrite Size_loop_eq.
  unfold HasNext. rewrite E. reflexivity.
Qed.

Lemma Contains_hasNext_error (v : Value T P) b e p' val fuel :
  hasNext v (env v) = ((b, Some e), p') ->
  fst (Contains fuel val v) = Panic BadTypeAssertion.
Proof.
  intros E. rewrite Contains_eq.
  unfold HasNext. rewrite E. reflexivity.
Qed.

Lemma Get_hasNext_error (v : Value T P) b e p' k fuel :
  hasNext v (env v) = ((b, Some e), p') ->
  0 <= GoInt.wrap k ->
  index v < GoInt.wrap k ->
  fst (Get fuel (VInt k) v) = Panic BadTypeAssertion.
Proof.
  intros E Hk Hlt. unfold Get.
  replace (GoInt.wrap k <? 0) with false by (symmetry; apply Z.ltb_ge; lia).
  replace (GoInt.wrap k <? index v) with false by (symmetry; apply Z.ltb_ge; lia).
  rewrite Get_loop_eq.
  replace (index v <? GoInt.wrap k) with true by (symmetry; apply Z.ltb_lt; lia).
  unfold HasNext. rewrite E. reflexivity.
Qed.

Lemma Get_loop_next_error (v : Value T P) p1 x e p2 k fuel :
  hasNext v (env v) = ((true, None), p1) ->
  next v p1 = ((x, Some e), p2) ->
  index v < k ->
  Get_loop (S fuel) k v
  = Get_loop fuel k (mkValue (index v) (cur v) (hasNext v) (next v) (convert v) p2).
Proof.
  intros E1 E2 Hlt. rewrite Get_loop_eq.
  replace (index v <? k) with true by (symmetry; apply Z.ltb_lt; lia).
  unfold HasNext. rewrite E1. cbn [value_bool].
  unfold Next. cbn [next env index cur hasNext convert]. rewrite E2. reflexivity.
Qed.

End ProducerErrors.

(** C1, where the code departs from it. [HasNext] turns an error of the
    [hasNext] callback into a host error value, but [Size], [Contains] and
    the loop of [Get] assert that value to be a boolean: they fault instead
    of returning it. And the loop of [Get] drops what [Next] returns: after
    an error of the [next] callback it goes round again, with the index and
    the current element as they were, so the error is not [Get]'s result
    (the advance is tried again as long as the availability check allows). *)
Theorem producer_errors_in_loops {T P : Type} `{Native T} :
  (forall (v : Value T P) b e p' val k fuel,
      hasNext v (env v) = ((b, Some e), p') ->
      fst (HasNext v) = VErr ("error checking for next element: " ++ e)%string
      /\ fst (Size fuel v) = Panic BadTypeAssertion
      /\ fst (Contains fuel val v) = Panic BadTypeAssertion
      /\ (0 <= GoInt.wrap k -> index v < GoInt.wrap k ->
          fst (Get fuel (VInt k) v) = Panic BadTypeAssertion))
  /\ (forall (v : Value T P) p1 x e p2 k fuel,
         hasNext v (env v) = ((true, None), p1) ->
         next v p1 = ((x, Some e), p2) ->
         index v < k ->
         Get_loop (S fuel) k v
         = Get_loop fuel k (mkValue (index v) (cur v) (hasNext v) (next v) (convert v) p2)).
Proof.
  split.
  - intros v b e p' val k fuel E. split; [|split; [|split]].
    + unfold HasNext. rewrite E. reflexivity.
    + exact (Size_hasNext_error v b e p' fuel E).
    + exact (Contains_hasNext_error v b e p' val fuel E).
    + intros Hk Hlt. exact (Get_hasNext_error v b e p' k fuel E Hk Hlt).
  - intros v p1 x e p2 k fuel E1 E2 Hlt.
    exact (Get_loop_next_error v p1 x e p2 k fuel E1 E2 Hlt).
Qed.

Lemma producer_errors_in_loops_witness :
  let broken : Value string unit :=
    New (Some failing_hasNext) None (Some VString) tt in
  let flaky : Value string nat :=
    New (Some flaky_hasNext) (Some flaky_next) (Some VString) O in
  (fst (HasNext broken)
   = VErr "error checking for next element: backend unavailable"%string
   /\ fst (Size 1 broken) = Panic BadTypeAssertion
   /\ fst (Contains 1 (VString "x") broken) = Panic BadTypeAssertion
   /\ fst (Get 1 (VInt 0) broken) = Panic BadTypeAssertion)
  /\ Get_loop 2 0 flaky
     = Get_loop 1 0 (mkValue (-1) EmptyString flaky_hasNext flaky_next VString 1%nat).
Proof.
  intros broken flaky. split.
  - destruct (@producer_errors_in_loops string unit _) as (A & _).
    destruct (A broken false "backend unavailable"%string tt (VString "x") 0 1%nat
                eq_refl) as (A1 & A2 & A3 & A4).
    split; [exact A1 | split; [exact A2 | split; [exact A3 |]]].
    apply A4; vm_compute; [discriminate | reflexivity].
  - destruct (@producer_errors_in_loops string nat _) as (_ & B).
    apply (B flaky O EmptyString "timeout"%string 1%nat 0 1%nat).
    + reflexivity.
    + reflexivity.
    + vm_compute. reflexivity.
Defined.

(** A failed advance is tried again: the element of the second attempt is
    [Get]'s result, and the error of the first is seen nowhere. *)
Example Get_after_failed_advance :
  fst (Next (New (Some flaky_hasNext) (Some flaky_next) (Some VString) O))
  = VErr "error getting next element: timeout"%string
  /\ fst (Get 2 (VInt 0)
              (New (Some flaky_hasNext) (Some flaky_next) (Some VString) O))
     = Ret (VString "late").
Proof. split; reflexivity. Qed.

(** ** Import and export *)

Section RoundTrip.

Context {T G C : Type} `{Native T}.
Variable resume : Resume T G.
Variable cv : ConvertFn T.
Variable back : Val -> option T.
Hypothesis back_cv : forall x, back (cv x) = Some x.

Let imported (i : Z) (c s : T) (g : G) : Value T (SeqEnv T G) :=
  mkValue i c (FromSeq_hasNext resume) (FromSeq_getNext (G := G)) cv
          {| slot := s; pull := {| gen := g; done := false |} |}.

Lemma FromSeq_hasNext_some s g x g' :
  resume g = Some (x, g') ->
  FromSeq_hasNext resume {| slot := s; pull := {| gen := g; done := false |} |}
  = ((true, None), {| slot := x; pull := {| gen := g'; done := false |} |}).
Proof.
  intros E. unfold FromSeq_hasNext, pull_next. cbn [pull done gen].
  rewrite E. reflexivity.
Qed.

Lemma FromSeq_hasNext_none s g :
  resume g = None ->
  FromSeq_hasNext resume {| slot := s; pull := {| gen := g; done := false |} |}
  = ((false, None), {| slot := zero; pull := {| gen := g; done := true |} |}).
Proof.
  intros E. unfold FromSeq_hasNext, pull_next. cbn [pull done gen].
  rewrite E. reflexivity.
Qed.

(** The exported generator hands the consumer what the native generator
    hands it, whatever the consumer does with it. *)
Lemma AsSeq_loop_FromSeq (yield : T -> C -> bool * C) fuel :
  forall g i c s a a',
    run_seq resume yield fuel g a = Ret a' ->
    exists it,
      AsSeq_loop (U := T) back yield fuel (imported i c s g) a = (Ret tt, it, a').
Proof.
  induction fuel as [|fuel IH]; intros g i c s a a' R.
  - simpl in R. destruct (resume g) as [[x g']|] eqn:E; [discriminate|].
    inversion R; subst. unfold imported. simpl.
    rewrite (HasNext_ok _ _ cv i c _ false _ (FromSeq_hasNext_none s g E)).
    simpl. eexists. reflexivity.
  - simpl in R. destruct (resume g) as [[x g']|] eqn:E.
    + unfold imported. simpl.
      rewrite (HasNext_ok _ _ cv i c _ true _ (FromSeq_hasNext_some s g x g' E)).
      simpl. rewrite back_cv.
      destruct (yield x a) as [more a1]. destruct more; simpl.
      * apply (IH g' (GoInt.incr i) x x a1 a' R).
      * inversion R; subst. eexists. reflexivity.
    + inversion R; subst. unfold imported. simpl.
      rewrite (HasNext_ok _ _ cv i c _ false _ (FromSeq_hasNext_none s g E)).
      simpl. eexists. reflexivity.
Qed.

Lemma run_seq_finite (yield : T -> C -> bool * C) g xs g' :
  resumes resume g xs g' ->
  resume g' = None ->
  forall fuel a,
    (List.length xs <= fuel)%nat ->
    exists a', run_seq resume yield fuel g a = Ret a'.
Proof.
  induction 1 as [g|g x g1 xs g2 E R IH]; intros Hend fuel a Hfuel.
  - exists a. destruct fuel; simpl; rewrite Hend; reflexivity.
  - destruct fuel as [|fuel]; [simpl in Hfuel; lia|].
    simpl. rewrite E. destruct (yield x a) as [more a1]. destruct more.
    + apply IH; [exact Hend | simpl in Hfuel; lia].
    + exists a1. reflexivity.
Qed.

End RoundTrip.

Lemma run_seq_collect {T G : Type} (resume : Resume T G) g xs g' :
  resumes resume g xs g' ->
  resume g' = None ->
  forall fuel acc,
    (List.length xs <= fuel)%nat ->
    run_seq resume collect fuel g acc = Ret (acc ++ xs).
Proof.
  induction 1 as [g|g x g1 xs g2 E R IH]; intros Hend fuel acc Hfuel.
  - rewrite app_nil_r. destruct fuel; simpl; rewrite Hend; reflexivity.
  - destruct fuel as [|fuel]; [simpl in Hfuel; lia|].
    cbn [run_seq]. rewrite E. unfold collect at 1.
    rewrite (IH Hend fuel (acc ++ [x])) by (simpl in Hfuel; lia).
    rewrite <- app_assoc. reflexivity.
Qed.

(** C2. For a finite native generator that yields [xs], importing it with
    [FromSeq] and exporting the result with [AsSeq] (through a conversion
    that takes each converted element back) yields [xs], in order, which
    is what the generator yields when called directly. More: whatever the
    consumer does with the elements, and whenever it stops, the exported
    generator leaves it in the state the native generator leaves it in. *)
Theorem FromSeq_AsSeq_round_trip {T G : Type} `{Native T}
    (resume : Resume T G) (g : G) (xs : list T)
    (cv : ConvertFn T) (back : Val -> option T) (fuel : nat) :
  yields resume g xs ->
  (forall x, back (cv x) = Some x) ->
  (List.length xs <= fuel)%nat ->
  run_seq resume collect fuel g [] = Ret xs
  /\ (exists it,
         AsSeq (RCursor (FromSeq resume g (Some cv))) (Some back) collect fuel []
         = (Ret tt, RCursor it, xs))
  /\ (forall (C : Type) (yield : T -> C -> bool * C) (c : C),
         exists it c',
           run_seq resume yield fuel g c = Ret c'
           /\ AsSeq (RCursor (FromSeq resume g (Some cv))) (Some back) yield fuel c
              = (Ret tt, RCursor it, c')).
Proof.
  intros (g' & R & Hend) Hback Hfuel.
  assert (Hany : forall (C : Type) (yield : T -> C -> bool * C) (c c' : C),
             run_seq resume yield fuel g c = Ret c' ->
             exists it,
               AsSeq (RCursor (FromSeq resume g (Some cv))) (Some back) yield fuel c
               = (Ret tt, RCursor it, c')).
  { intros C yield c c' Hrun.
    destruct (AsSeq_loop_FromSeq resume cv back Hback yield fuel g (-1) zero zero c c' Hrun)
      as (it & E).
    exists it. unfold AsSeq, FromSeq, New. rewrite E. reflexivity. }
  pose proof (run_seq_collect resume g xs g' R Hend fuel [] Hfuel) as Hc.
  rewrite app_nil_l in Hc.
  split; [exact Hc|]. split.
  - apply Hany. exact Hc.
  - intros C yield c.
    destruct (run_seq_finite resume yield g xs g' R Hend fuel c Hfuel) as (c' & Hrun).
    destruct (Hany C yield c c' Hrun) as (it & E).
    exists it, c'. split; assumption.
Qed.

Lemma FromSeq_AsSeq_round_trip_witness :
  run_seq slices_Values collect 3 ["test"; "example"; "sample"]%string []
  = Ret ["test"; "example"; "sample"]%string
  /\ (exists it,
         AsSeq (RCursor (FromSeq slices_Values ["test"; "example"; "sample"]%string
                                 (Some VString)))
               (Some assert_Value) collect 3 []
         = (Ret tt, RCursor it, ["test"; "example"; "sample"]%string))
  /\ (forall (C : Type) (yield : string -> C -> bool * C) (c : C),
         exists it c',
           run_seq slices_Values yield 3 ["test"; "example"; "sample"]%string c = Ret c'
           /\ AsSeq (RCursor (FromSeq slices_Values ["test"; "example"; "sample"]%string
                                      (Some VString)))
                    (Some assert_Value) yield 3 c
              = (Ret tt, RCursor it, c')).
Proof.
  apply (FromSeq_AsSeq_round_trip slices_Values
           ["test"; "example"; "sample"]%string ["test"; "example"; "sample"]%string
           VString assert_Value 3).
  - exists []. split; [repeat (econstructor; try reflexivity) | reflexivity].
  - intros x. reflexivity.
  - simpl. lia.
Defined.

(** A consumer that stops after two elements sees the same two from the
    exported generator and from the native one. *)
Example export_stops_with_consumer :
  let take2 := fun (x : string) (acc : list string) =>
                 (Nat.ltb (List.length acc) 1, acc ++ [x]) in
  run_seq slices_Values take2 3 ["test"; "example"; "sample"]%string []
  = Ret ["test"; "example"]%string
  /\ snd (AsSeq (RCursor (FromSeq slices_Values ["test"; "example"; "sample"]%string
                                  (Some VString)))
                (Some assert_Value) take2 3 [])
     = ["test"; "example"]%string.
Proof. split; reflexivity. Qed.

(** A value without the iterator capability exports as the empty
    generator. *)
Example export_of_plain_value :
  AsSeq (T := string) (P := unit) (U := string) (RData (VInt 7)) None collect 3 []
  = (Ret tt, RData (VInt 7), []).
Proof. reflexivity. Qed.

(** * Further properties of the cursor *)

(** ** Missing callbacks *)

(** X1. A cursor built without an availability check is empty from the
    start and stays as it is: [HasNext] is false, [Size] is 0, [Contains]
    is false and [Get] of any index is out of bounds, each leaving the
    cursor untouched. Built without an advance, [Next] returns the error
    "error getting next element: no next element" and changes nothing.
    Built without a converter, elements are converted by the default type
    adapter. *)
Theorem New_missing_callbacks {T P : Type} `{Native T} :
  (forall nx cv (p : P) (val : Val) (fuel : nat),
      let v := New (T := T) None nx cv p in
      HasNext v = (VBool false, v)
      /\ Size fuel v = (Ret (VInt 0), v)
      /\ Contains fuel val v = (Ret (VBool false), v))
  /\ (forall nx cv (p : P) (k : Z) (fuel : nat),
         0 <= k <= GoInt.max_int ->
         let v := New (T := T) None nx cv p in
         Get fuel (VInt k) v
         = (Ret (VErr "index out of bounds during iterable access"%string), v))
  /\ (forall hn cv (p : P),
         let v := New (T := T) hn None cv p in
         Next v = (VErr "error getting next element: no next element"%string, v))
  /\ (forall hn nx (p : P) (x : T),
         convert (New hn nx None p) x = NativeToValue x).
Proof.
  split; [|split; [|split]].
  - intros nx cv p val fuel v. split; [reflexivity|]. split.
    + unfold Size. rewrite Size_loop_eq. reflexivity.
    + rewrite Contains_eq. reflexivity.
  - intros nx cv p k fuel Hk v. unfold Get.
    rewrite wrap_in_range by (unfold GoInt.in_range, GoInt.min_int; lia).
    replace (k <? 0) with false by (symmetry; apply Z.ltb_ge; lia).
    replace (k <? index v) with false
      by (symmetry; apply Z.ltb_ge; unfold v, New; cbn [index]; lia).
    rewrite Get_loop_eq.
    replace (index v <? k) with true
      by (symmetry; apply Z.ltb_lt; unfold v, New; cbn [index]; lia).
    reflexivity.
  - intros hn cv p v. reflexivity.
  - intros hn nx p x. reflexivity.
Qed.

Lemma New_missing_callbacks_witness :
  let v : Value string unit := New None None None tt in
  Get 0 (VInt 0) v
  = (Ret (VErr "index out of bounds during iterable access"%string), v)
  /\ Size 0 v = (Ret (VInt 0), v)
  /\ Next v = (VErr "error getting next element: no next element"%string, v).
Proof.
  intros v.
  destruct (@New_missing_callbacks string unit _) as (A & B & C & _).
  split; [|split].
  - apply (B None None tt 0 0%nat). unfold GoInt.max_int. lia.
  - apply (A None None tt VNull 0%nat).
  - apply (C None None tt).
Defined.

(** ** What [Size] counts *)

Section Counting.

Context {T P : Type} `{Native T}.
Variables (hn : HasNextFn P) (nx : NextFn T P) (cv : ConvertFn T).

Lemma Next_env i c p r p' :
  nx p = (r, p') ->
  exists i' c', snd (Next (mkValue i c hn nx cv p)) = mkValue i' c' hn nx cv p'.
Proof.
  intros E. unfold Next. cbn [next env]. rewrite E.
  destruct r as [x [e|]]; cbn [snd]; eauto.
Qed.

Lemma Size_loop_rounds p n p' :
  rounds hn nx p n p' ->
  exhausted hn p' ->
  forall i c size fuel,
    (n <= fuel)%nat ->
    exists i' c',
      Size_loop fuel size (mkValue i c hn nx cv p)
      = (Ret (VInt (Nat.iter n GoInt.incr size)), mkValue i' c' hn nx cv (snd (hn p'))).
Proof.
  induction 1 as [p|p p1 r p2 n p' E1 E2 R IH]; intros Hex i c size fuel Hfuel.
  - rewrite Size_loop_eq, (HasNext_exhausted hn nx cv i c p Hex).
    exists i, c. reflexivity.
  - rewrite Size_loop_eq, (HasNext_ok hn nx cv i c p true p1 E1). cbn [value_bool].
    destruct fuel as [|fuel]; [lia|].
    destruct (Next_env i c p1 r p2 E2) as (i' & c' & En).
    destruct (Next (mkValue i c hn nx cv p1)) as [e v2]. cbn [snd] in En. subst v2.
    rewrite Nat.iter_succ_r. apply IH; [exact Hex | lia].
Qed.

Lemma Size_exhausted i c p fuel :
  exhausted hn p ->
  Size fuel (mkValue i c hn nx cv p) = (Ret (VInt 0), mkValue i c hn nx cv (snd (hn p))).
Proof.
  intros Hex. unfold Size.
  rewrite Size_loop_eq, (HasNext_exhausted hn nx cv i c p Hex). reflexivity.
Qed.

Lemma Contains_exhausted i c p val fuel :
  exhausted hn p ->
  Contains fuel val (mkValue i c hn nx cv p)
  = (Ret (VBool false), mkValue i c hn nx cv (snd (hn p))).
Proof.
  intros Hex.
  rewrite Contains_eq, (HasNext_exhausted hn nx cv i c p Hex). reflexivity.
Qed.

Lemma Get_exhausted i c p k fuel :
  exhausted hn p ->
  -1 <= i -> i < k -> k <= GoInt.max_int ->
  Get fuel (VInt k) (mkValue i c hn nx cv p)
  = (Ret (VErr "index out of bounds during iterable access"%string),
     mkValue i c hn nx cv (snd (hn p))).
Proof.
  intros Hex Hi Hk Hmax. unfold Get.
  rewrite wrap_in_range by (unfold GoInt.in_range, GoInt.min_int; lia).
  replace (k <? 0) with false by (symmetry; apply Z.ltb_ge; lia).
  cbn [index].
  replace (k <? i) with false by (symmetry; apply Z.ltb_ge; lia).
  rewrite Get_loop_eq. cbn [index].
  replace (i <? k) with true by (symmetry; apply Z.ltb_lt; lia).
  rewrite (HasNext_exhausted hn nx cv i c p Hex). reflexivity.
Qed.

End Counting.

(** X2. [Size] counts the availability checks that were true, not the
    elements delivered: over [n] rounds of a true check followed by an
    advance, it returns [n] whether the advances succeeded or failed. *)
Theorem Size_counts_rounds {T P : Type} `{Native T}
    (hn : HasNextFn P) (nx : NextFn T P) (cv : ConvertFn T)
    (p : P) (n : nat) (p' : P) (i : Z) (c : T) (fuel : nat) :
  rounds hn nx p n p' ->
  exhausted hn p' ->
  (n <= fuel)%nat ->
  Z.of_nat n <= GoInt.max_int ->
  fst (Size fuel (mkValue i c hn nx cv p)) = Ret (VInt (Z.of_nat n))
  /\ env (snd (Size fuel (mkValue i c hn nx cv p))) = snd (hn p').
Proof.
  intros R Hex Hfuel Hmax. unfold Size.
  destruct (Size_loop_rounds hn nx cv p n p' R Hex i c 0 fuel Hfuel) as (i' & c' & E).
  rewrite E. cbn [fst snd env].
  rewrite iter_incr by (unfold GoInt.min_int; lia).
  split; reflexivity.
Qed.

Lemma flaky_exhausted : exhausted flaky_hasNext 2%nat.
Proof.
  intros n. rewrite iter_fixed by reflexivity. reflexivity.
Qed.

Lemma Size_counts_rounds_witness :
  fst (Size 2 (New (Some flaky_hasNext) (Some flaky_next) (Some VString) O))
  = Ret (VInt 2)
  /\ env (snd (Size 2 (New (Some flaky_hasNext) (Some flaky_next) (Some VString) O)))
     = 2%nat.
Proof.
  apply (Size_counts_rounds flaky_hasNext flaky_next VString O 2 2%nat (-1)
           EmptyString 2).
  - repeat (econstructor; try reflexivity).
  - exact flaky_exhausted.
  - lia.
  - unfold GoInt.max_int. simpl. lia.
Defined.

(** ** Operations one after the other *)

Lemma last_app_default {A : Type} (xs ys : list A) (d : A) :
  last (xs ++ ys) d = last ys (last xs d).
Proof.
  revert d. induction xs as [|x xs IH]; intros d.
  - reflexivity.
  - change ((x :: xs) ++ ys) with (x :: (xs ++ ys)).
    rewrite !last_cons. apply IH.
Qed.

Lemma delivers_split {T P : Type} (hn : HasNextFn P) (nx : NextFn T P)
    p xs p' (n : nat) :
  delivers hn nx p xs p' ->
  exists q, delivers hn nx p (firstn n xs) q /\ delivers hn nx q (skipn n xs) p'.
Proof.
  intros D. rewrite <- (firstn_skipn n xs) in D.
  apply delivers_app in D. exact D.
Qed.

(** [Get] from a cursor that stands at index [i]: it walks what the
    producer delivers next. *)
Lemma Get_forward {T P : Type} `{Native T}
    (hn : HasNextFn P) (nx : NextFn T P) (cv : ConvertFn T)
    p ys q (i : Z) (c : T) fuel :
  delivers hn nx p ys q ->
  -1 <= i ->
  0 <= i + Z.of_nat (List.length ys) <= GoInt.max_int ->
  (List.length ys <= fuel)%nat ->
  Get fuel (VInt (i + Z.of_nat (List.length ys))) (mkValue i c hn nx cv p)
  = (Ret (cv (last ys c)),
     mkValue (i + Z.of_nat (List.length ys)) (last ys c) hn nx cv q).
Proof.
  intros D Hi Hk Hfuel. unfold Get.
  rewrite wrap_in_range by (unfold GoInt.in_range, GoInt.min_int; lia).
  replace (i + Z.of_nat (List.length ys) <? 0) with false
    by (symmetry; apply Z.ltb_ge; lia).
  cbn [index].
  replace (i + Z.of_nat (List.length ys) <? i) with false
    by (symmetry; apply Z.ltb_ge; lia).
  apply Get_loop_delivers; try assumption; unfold GoInt.min_int; lia.
Qed.

(** X3. Indexed reads compose forwards: on a fresh cursor, [Get(i)]
    followed by [Get(j)] with [i <= j] returns what [Get(j)] alone returns
    and leaves the cursor in the same state. *)
Theorem Get_then_Get {T P : Type} `{Native T}
    (hn : HasNextFn P) (nx : NextFn T P) (cv : ConvertFn T)
    (p : P) (xs : list T) (p' : P) (i j f1 f2 f3 : nat) :
  delivers hn nx p xs p' ->
  (i <= j < List.length xs)%nat ->
  Z.of_nat j <= GoInt.max_int ->
  (i < f1)%nat -> (j - i <= f2)%nat -> (j < f3)%nat ->
  let fresh := New (Some hn) (Some nx) (Some cv) p in
  Get f2 (VInt (Z.of_nat j)) (snd (Get f1 (VInt (Z.of_nat i)) fresh))
  = Get f3 (VInt (Z.of_nat j)) fresh
  /\ fst (Get f3 (VInt (Z.of_nat j)) fresh) = Ret (cv (nth j xs zero)).
Proof.
  intros D Hij Hmax Hf1 Hf2 Hf3 fresh.
  destruct (delivers_split hn nx p xs p' (S j) D) as (qj & Dj & _).
  destruct (delivers_split hn nx p _ qj (S i) Dj) as (qi & Di & Dij).
  rewrite firstn_firstn in Di.
  replace (Nat.min (S i) (S j)) with (S i) in Di by lia.
  unfold fresh.
  rewrite (Get_fresh_prefix hn nx cv p xs qj j f3 Dj) by lia.
  rewrite (Get_fresh_prefix hn nx cv p xs qi i f1 Di) by lia.
  cbn [fst snd]. split; [|reflexivity].
  assert (Hlast : last (skipn (S i) (firstn (S j) xs)) (nth i xs zero) = nth j xs zero).
  { rewrite <- (last_firstn_nth xs i zero) by lia.
    rewrite <- (last_firstn_nth xs j zero) by lia.
    rewrite <- (firstn_skipn (S i) (firstn (S j) xs)) at 2.
    rewrite last_app_default, firstn_firstn.
    replace (Nat.min (S i) (S j)) with (S i) by lia. reflexivity. }
  set (ys := skipn (S i) (firstn (S j) xs)) in *.
  assert (Hlen : List.length ys = (j - i)%nat).
  { unfold ys. rewrite length_skipn, length_firstn. lia. }
  pose proof (Get_forward hn nx cv qi ys qj (Z.of_nat i) (nth i xs zero) f2 Dij) as G.
  rewrite Hlen, Hlast in G.
  replace (Z.of_nat i + Z.of_nat (j - i)) with (Z.of_nat j) in G by lia.
  apply G; lia.
Qed.

Lemma Get_then_Get_witness :
  let fresh := New (Some slice_hasNext) (Some slice_next) (Some VString)
                   ["test"; "example"; "sample"]%string in
  Get 2 (VInt 2) (snd (Get 1 (VInt 0) fresh)) = Get 3 (VInt 2) fresh
  /\ fst (Get 3 (VInt 2) fresh) = Ret (VString "sample").
Proof.
  apply (Get_then_Get slice_hasNext slice_next VString
           ["test"; "example"; "sample"]%string
           ["test"; "example"; "sample"]%string [] 0 2 1 2 3).
  - repeat (econstructor; try reflexivity).
  - simpl. lia.
  - unfold GoInt.max_int. simpl. lia.
  - lia.
  - simpl. lia.
  - lia.
Defined.

(** X4. [Size] counts what is left, and uses it up: after [Get(i)] on a
    fresh cursor over [N] elements it returns [N - 1 - i], and a second
    [Size] returns 0. *)
Theorem Size_counts_what_is_left {T P : Type} `{Native T}
    (hn : HasNextFn P) (nx : NextFn T P) (cv : ConvertFn T)
    (p : P) (xs : list T) (p' : P) :
  produces hn nx p xs p' ->
  Z.of_nat (List.length xs) <= GoInt.max_int ->
  let fresh := New (Some hn) (Some nx) (Some cv) p in
  (forall i f1 f2 : nat,
      (i < List.length xs)%nat -> (i < f1)%nat -> (List.length xs - S i <= f2)%nat ->
      fst (Size f2 (snd (Get f1 (VInt (Z.of_nat i)) fresh)))
      = Ret (VInt (Z.of_nat (List.length xs) - 1 - Z.of_nat i)))
  /\ (forall f1 f2 : nat,
         (List.length xs <= f1)%nat ->
         fst (Size f1 fresh) = Ret (VInt (Z.of_nat (List.length xs)))
         /\ fst (Size f2 (snd (Size f1 fresh))) = Ret (VInt 0)).
Proof.
  intros [D Hex] Hmax fresh. split.
  - intros i f1 f2 Hi Hf1 Hf2.
    destruct (delivers_split hn nx p xs p' (S i) D) as (q & D1 & D2).
    unfold fresh.
    rewrite (Get_fresh_prefix hn nx cv p xs q i f1 D1) by lia.
    cbn [snd]. unfold Size.
    rewrite (Size_loop_produces hn nx cv q _ p' D2 Hex) by (rewrite length_skipn; lia).
    cbn [fst]. rewrite length_skipn.
    rewrite iter_incr by (unfold GoInt.min_int; lia).
    replace (0 + Z.of_nat (List.length xs - S i))
      with (Z.of_nat (List.length xs) - 1 - Z.of_nat i) by lia.
    reflexivity.
  - intros f1 f2 Hf1. unfold fresh.
    rewrite (Size_fresh hn nx cv p xs p' f1 (conj D Hex) Hmax Hf1).
    cbn [fst snd]. split; [reflexivity|].
    rewrite Size_exhausted by (apply exhausted_step; exact Hex).
    reflexivity.
Qed.

Lemma Size_counts_what_is_left_witness :
  let fresh := New (Some slice_hasNext) (Some slice_next) (Some VString)
                   ["test"; "example"; "sample"]%string in
  fst (Size 2 (snd (Get 1 (VInt 0) fresh))) = Ret (VInt 2)
  /\ fst (Size 3 fresh) = Ret (VInt 3)
  /\ fst (Size 0 (snd (Size 3 fresh))) = Ret (VInt 0).
Proof.
  intros fresh.
  destruct (Size_counts_what_is_left slice_hasNext slice_next VString
              ["test"; "example"; "sample"]%string
              ["test"; "example"; "sample"]%string []) as (A & B).
  - split; [repeat (econstructor; try reflexivity) | apply slice_exhausted].
  - unfold GoInt.max_int. simpl. lia.
  - split.
    + apply (A 0%nat 1%nat 2%nat); simpl; lia.
    + apply (B 3%nat 0%nat). simpl. lia.
Defined.

(** X5. An indexed read past the end uses the stream up: after [Get(k)]
    with [k >= N] has failed on a fresh cursor over [N] elements, the
    cursor stands on the last element (index [N-1]), [Size] returns 0,
    [Contains] returns false and every further [Get] past the end fails the
    same way. *)
Theorem Get_past_the_end_drains {T P : Type} `{Native T}
    (hn : HasNextFn P) (nx : NextFn T P) (cv : ConvertFn T)
    (p : P) (xs : list T) (p' : P) (k : Z) (fuel : nat) :
  produces hn nx p xs p' ->
  Z.of_nat (List.length xs) <= k <= GoInt.max_int ->
  (List.length xs <= fuel)%nat ->
  let v' := snd (Get fuel (VInt k) (New (Some hn) (Some nx) (Some cv) p)) in
  index v' = Z.of_nat (List.length xs) - 1
  /\ cur v' = last xs zero
  /\ (forall f, fst (Size f v') = Ret (VInt 0))
  /\ (forall f val, fst (Contains f val v') = Ret (VBool false))
  /\ (forall f k',
         Z.of_nat (List.length xs) <= k' <= GoInt.max_int ->
         fst (Get f (VInt k') v')
         = Ret (VErr "index out of bounds during iterable access"%string)).
Proof.
  intros Hp Hk Hfuel v'. unfold v'.
  rewrite (Get_out_of_bounds hn nx cv p xs p' k fuel Hp Hk Hfuel). cbn [snd index cur].
  destruct Hp as [D Hex].
  assert (Hex' : exhausted hn (snd (hn p'))) by (apply exhausted_step; exact Hex).
  split; [reflexivity|]. split; [reflexivity|]. split; [|split].
  - intros f. rewrite Size_exhausted by exact Hex'. reflexivity.
  - intros f val. rewrite Contains_exhausted by exact Hex'. reflexivity.
  - intros f k' Hk'. rewrite Get_exhausted; [reflexivity | exact Hex' | lia..].
Qed.

Lemma Get_past_the_end_drains_witness :
  let v' := snd (Get 3 (VInt 4)
                     (New (Some slice_hasNext) (Some slice_next) (Some VString)
                          ["test"; "example"; "sample"]%string)) in
  index v' = 2
  /\ cur v' = "sample"%string
  /\ (forall f, fst (Size f v') = Ret (VInt 0))
  /\ (forall f val, fst (Contains f val v') = Ret (VBool false))
  /\ (forall f k',
         3 <= k' <= GoInt.max_int ->
         fst (Get f (VInt k') v')
         = Ret (VErr "index out of bounds during iterable access"%string)).
Proof.
  apply (Get_past_the_end_drains slice_hasNext slice_next VString
           ["test"; "example"; "sample"]%string
           ["test"; "example"; "sample"]%string [] 4 3).
  - split; [repeat (econstructor; try reflexivity) | apply slice_exhausted].
  - unfold GoInt.max_int. simpl. lia.
  - simpl. lia.
Defined.

(** X6. [Contains] uses up what it searched: when the value occurs once in
    what is left of a finite stream, the first [Contains] is true, a second
    one for the same value is false, and [Size] after the first counts only
    the elements behind the match. *)
Theorem Contains_then_again {T P : Type} `{Native T}
    (hn : HasNextFn P) (nx : NextFn T P) (cv : ConvertFn T)
    (val : Val) (i : Z) (c : T)
    (p : P) (pre : list T) (x : T) (post : list T) (p' : P) (f1 f2 : nat) :
  delivers hn nx p (pre ++ x :: post) p' ->
  exhausted hn p' ->
  Forall (differs cv val) pre ->
  is_True (val_equal (cv x) val) = true ->
  (List.length pre < f1)%nat ->
  (List.length post <= f2)%nat ->
  Z.of_nat (List.length post) <= GoInt.max_int ->
  let v := mkValue i c hn nx cv p in
  fst (Contains f1 val v) = Ret (VBool true)
  /\ fst (Size f2 (snd (Contains f1 val v))) = Ret (VInt (Z.of_nat (List.length post)))
  /\ (Forall (differs cv val) post ->
      fst (Contains f2 val (snd (Contains f1 val v))) = Ret (VBool false)).
Proof.
  intros D Hex Hpre Hx Hf1 Hf2 Hmax v.
  change (pre ++ x :: post) with (pre ++ [x] ++ post) in D.
  rewrite app_assoc in D. apply delivers_app in D. destruct D as (q & D1 & D2).
  unfold v.
  rewrite (Contains_present hn nx cv val p pre x q D1 Hpre Hx i c f1 Hf1).
  cbn [fst snd]. split; [reflexivity|]. split.
  - unfold Size. rewrite (Size_loop_produces hn nx cv q post p' D2 Hex) by exact Hf2.
    cbn [fst]. rewrite iter_incr by (unfold GoInt.min_int; lia). reflexivity.
  - intros Hpost.
    rewrite (Contains_absent hn nx cv val q post p' D2 Hex Hpost) by exact Hf2.
    reflexivity.
Qed.

Lemma Contains_then_again_witness :
  let v := New (Some slice_hasNext) (Some slice_next) (Some VString)
               ["test"; "example"; "sample"]%string in
  fst (Contains 2 (VString "example") v) = Ret (VBool true)
  /\ fst (Size 1 (snd (Contains 2 (VString "example") v))) = Ret (VInt 1)
  /\ fst (Contains 1 (VString "example") (snd (Contains 2 (VString "example") v)))
     = Ret (VBool false).
Proof.
  intros v.
  destruct (Contains_then_again slice_hasNext slice_next VString (VString "example")
              (-1) EmptyString ["test"; "example"; "sample"]%string
              ["test"%string] "example"%string ["sample"%string] [] 2 1)
    as (A & B & C).
  - repeat (econstructor; try reflexivity).
  - apply slice_exhausted.
  - repeat constructor.
  - reflexivity.
  - simpl. lia.
  - simpl. lia.
  - unfold GoInt.max_int. simpl. lia.
  - split; [exact A | split; [exact B |]].
    apply C. repeat constructor.
Defined.

(** ** Producers that never run out *)

Section Endless.

Context {T P : Type} `{Native T}.
Variable Inv : P -> Prop.

(** The availability check is true in every state [Inv] allows, and both
    callbacks keep the captured variables within [Inv]. *)
Let endless (v : Value T P) : Prop :=
  Inv (env v)
  /\ (forall q, Inv q -> fst (hasNext v q) = (true, None) /\ Inv (snd (hasNext v q)))
  /\ (forall q, Inv q -> Inv (snd (next v q))).

Lemma HasNext_fields (v : Value T P) :
  hasNext (snd (HasNext v)) = hasNext v
  /\ next (snd (HasNext v)) = next v
  /\ convert (snd (HasNext v)) = convert v
  /\ env (snd (HasNext v)) = snd (hasNext v (env v)).
Proof.
  unfold HasNext. destruct (hasNext v (env v)) as [[b [e|]] q]; repeat split.
Qed.

Lemma Next_fields (v : Value T P) :
  hasNext (snd (Next v)) = hasNext v
  /\ next (snd (Next v)) = next v
  /\ convert (snd (Next v)) = convert v
  /\ env (snd (Next v)) = snd (next v (env v)).
Proof.
  unfold Next. destruct (next v (env v)) as [[x [e|]] q]; repeat split.
Qed.

Lemma HasNext_endless (v : Value T P) :
  endless v -> fst (HasNext v) = VBool true.
Proof.
  intros (Hi & Hh & _). unfold HasNext. destruct (Hh (env v) Hi) as [Ht _].
  destruct (hasNext v (env v)) as [[b e] q]. cbn [fst] in Ht.
  inversion Ht; subst. reflexivity.
Qed.

Lemma endless_round (v : Value T P) :
  endless v -> endless (snd (Next (snd (HasNext v)))).
Proof.
  intros (Hi & Hh & Hn).
  pose proof (HasNext_fields v) as (Eh & En & _ & Ee).
  pose proof (Next_fields (snd (HasNext v))) as (Eh' & En' & _ & Ee').
  unfold endless. rewrite Eh', En', Ee', Eh, En, Ee.
  split; [|split; assumption].
  apply Hn. apply Hh. exact Hi.
Qed.

Lemma Next_result (v : Value T P) :
  (exists e, fst (Next v) = VErr e) \/ (exists x, fst (Next v) = convert v x).
Proof.
  unfold Next. destruct (next v (env v)) as [[x [e|]] q]; cbn [fst]; eauto.
Qed.

Lemma Size_loop_endless fuel :
  forall size (v : Value T P),
    endless v -> fst (Size_loop fuel size v) = OutOfFuel.
Proof.
  induction fuel as [|fuel IH]; intros size v Hv; rewrite Size_loop_eq;
    pose proof (HasNext_endless v Hv) as Hb;
    pose proof (endless_round v Hv) as Hr;
    destruct (HasNext v) as [r v1]; cbn [fst snd] in *; subst r; cbn [value_bool].
  - reflexivity.
  - destruct (Next v1) as [e v2]. cbn [snd] in Hr. apply IH. exact Hr.
Qed.

Lemma Contains_endless fuel val :
  forall v : Value T P,
    endless v ->
    (forall q x q', Inv q -> next v q = ((x, None), q') -> differs (convert v) val x) ->
    fst (Contains fuel val v) = OutOfFuel.
Proof.
  induction fuel as [|fuel IH]; intros v Hv Hdiff; rewrite Contains_eq;
    pose proof (HasNext_endless v Hv) as Hb;
    pose proof (endless_round v Hv) as Hr;
    pose proof (HasNext_fields v) as (_ & Hn & Hc & He);
    destruct Hv as (Hi & Hh & _);
    destruct (HasNext v) as [r v1]; cbn [fst snd] in *; subst r; cbn [value_bool].
  - reflexivity.
  - pose proof (Next_fields v1) as (_ & Hn' & Hc' & _).
    assert (Hi1 : Inv (env v1)) by (rewrite He; apply Hh; exact Hi).
    assert (Hno : is_True (val_equal (fst (Next v1)) val) = false).
    { unfold Next. destruct (next v1 (env v1)) as [[x [e|]] q'] eqn:En; cbn [fst].
      - reflexivity.
      - rewrite Hc. rewrite Hn in En. exact (Hdiff (env v1) x q' Hi1 En). }
    destruct (Next v1) as [e v2]. cbn [fst snd] in *.
    rewrite Hno. apply IH; [exact Hr|].
    intros q x q' Hq En. rewrite Hc', Hc. rewrite Hn', Hn in En.
    exact (Hdiff q x q' Hq En).
Qed.

(** X7. On a producer whose availability check stays true ([Inv] is kept
    by both callbacks and makes the check true), [Size] never returns, and
    neither does [Contains] of a value that the conversion of no element
    the producer delivers is equal to: whatever bound is put on the loop,
    it is reached. *)
Theorem Size_of_endless_producer (v : Value T P) :
  Inv (env v) ->
  (forall q, Inv q -> fst (hasNext v q) = (true, None) /\ Inv (snd (hasNext v q))) ->
  (forall q, Inv q -> Inv (snd (next v q))) ->
  (forall fuel, fst (Size fuel v) = OutOfFuel)
  /\ (forall val,
         (forall q x q',
             Inv q -> next v q = ((x, None), q') -> differs (convert v) val x) ->
         forall fuel, fst (Contains fuel val v) = OutOfFuel).
Proof.
  intros Hi Hh Hn.
  assert (Hv : endless v) by (split; [exact Hi | split; assumption]).
  split.
  - intros fuel. unfold Size. apply Size_loop_endless. exact Hv.
  - intros val Hdiff fuel. apply Contains_endless; assumption.
Qed.

End Endless.

Lemma Size_of_endless_producer_witness :
  (forall fuel, fst (Size fuel (FromSeq fibSeq (0, 1) (Some VInt))) = OutOfFuel)
  /\ (forall fuel,
         fst (Contains fuel (VInt (-1))
                       (New (Some naturals_hasNext) (Some naturals_next) (Some VInt) O))
         = OutOfFuel).
Proof.
  split.
  - destruct (Size_of_endless_producer (fun e => done (pull e) = false)
                (FromSeq fibSeq (0, 1) (Some VInt))) as (A & _).
    + reflexivity.
    + intros [s [[a b] d]] Hd. cbn [pull done] in Hd. subst d. split; reflexivity.
    + intros q Hq. exact Hq.
    + exact A.
  - destruct (Size_of_endless_producer (fun _ : nat => True)
                (New (Some naturals_hasNext) (Some naturals_next) (Some VInt) O))
      as (_ & B).
    + exact I.
    + intros q _. split; [reflexivity | exact I].
    + intros q _. exact I.
    + apply B. intros q x q' _ En.
      cbn [next New] in En. unfold naturals_next in En. inversion En; subst.
      unfold differs. cbn [convert New val_equal is_True].
      destruct (Z.eqb_spec (Z.of_nat q) (-1)) as [E|E]; [lia | reflexivity].
Defined.

(** ** Native conversion, by requested type *)

Lemma rtype_eqb_eq (a b : RType) : rtype_eqb a b = true <-> a = b.
Proof.
  revert b. induction a as [| | | | |a IH]; intros b; destruct b; simpl;
    try (split; [discriminate | discriminate]); try (split; reflexivity).
  rewrite IH. split; [intros ->; reflexivity | intros E; inversion E; reflexivity].
Qed.

(** X8. Among the requested types of the embedding ([bool], [int],
    [int64], [string], the empty interface and the slice types over
    these), [ConvertToNative] hands out the current element exactly when
    the requested type is the element's own dynamic type or the empty
    interface, and returns an error and no element exactly for the others. *)
Theorem ConvertToNative_accepts {T P : Type} `{Native T}
    (v : Value T P) (src typ : RType) :
  reflect_TypeOf (cur v) = Some src ->
  (ConvertToNative (Some typ) v = Ret (inl (cur v))
   <-> typ = src \/ typ = REmptyInterface)
  /\ ((exists e, ConvertToNative (Some typ) v = Ret (inr e))
      <-> typ <> src /\ typ <> REmptyInterface).
Proof.
  intros Hsrc. unfold ConvertToNative. rewrite Hsrc. unfold AssignableTo.
  destruct (rtype_eqb src typ) eqn:E1; destruct (rtype_eqb typ REmptyInterface) eqn:E2;
    cbn [orb];
    try apply rtype_eqb_eq in E1; try apply rtype_eqb_eq in E2.
  - split; split; auto.
    + intros (e & He). discriminate.
    + intros [Hn _]. congruence.
  - split; split; auto.
    + intros (e & He). discriminate.
    + intros [Hn _]. congruence.
  - split; split; auto.
    + intros (e & He). discriminate.
    + intros [_ Hn]. congruence.
  - assert (N1 : typ <> src).
    { intros ->. rewrite (proj2 (rtype_eqb_eq src src) eq_refl) in E1. discriminate. }
    assert (N2 : typ <> REmptyInterface).
    { intros ->. discriminate. }
    split; split.
    + intros E. discriminate.
    + intros [?|?]; congruence.
    + intros _. split; assumption.
    + intros _. eexists. reflexivity.
Qed.

Lemma ConvertToNative_accepts_witness :
  let v := snd (Next (New (Some slice_hasNext) (Some slice_next) (Some VString)
                          ["test"; "example"]%string)) in
  (ConvertToNative (Some REmptyInterface) v = Ret (inl (cur v))
   <-> REmptyInterface = RString \/ REmptyInterface = REmptyInterface)
  /\ ((exists e, ConvertToNative (Some (RSlice RString)) v = Ret (inr e))
      <-> RSlice RString <> RString /\ RSlice RString <> REmptyInterface).
Proof.
  intros v. split.
  - apply (ConvertToNative_accepts v RString REmptyInterface). reflexivity.
  - apply (ConvertToNative_accepts v RString (RSlice RString)). reflexivity.
Defined.

(** * Further properties of the importer *)

Section Imported.

Context {T G : Type} `{Native T}.
Variable resume : Resume T G.

Let parked (s : T) (g : G) : SeqEnv T G :=
  {| slot := s; pull := {| gen := g; done := false |} |}.

Let stopped (g : G) : SeqEnv T G :=
  {| slot := zero; pull := {| gen := g; done := true |} |}.

Lemma FromSeq_hasNext_stopped g :
  FromSeq_hasNext resume (stopped g) = ((false, None), stopped g).
Proof. reflexivity. Qed.

Lemma FromSeq_delivers g xs g' :
  resumes resume g xs g' ->
  forall s,
    delivers (FromSeq_hasNext resume) (FromSeq_getNext (G := G))
             (parked s g) xs (parked (last xs s) g').
Proof.
  induction 1 as [g|g x g1 xs g2 E R IH]; intros s.
  - constructor.
  - rewrite last_cons.
    apply delivers_cons with (p1 := parked x g1) (p2 := parked x g1).
    + apply FromSeq_hasNext_some. exact E.
    + reflexivity.
    + apply IH.
Qed.

Lemma FromSeq_exhausted s g :
  resume g = None ->
  exhausted (FromSeq_hasNext resume) (parked s g).
Proof.
  intros E n. destruct n as [|n].
  - cbn [Nat.iter]. unfold parked. rewrite (FromSeq_hasNext_none resume s g E). reflexivity.
  - rewrite Nat.iter_succ_r. unfold parked at 1.
    rewrite (FromSeq_hasNext_none resume s g E). cbn [snd].
    rewrite iter_fixed by reflexivity. reflexivity.
Qed.

Lemma resumes_split g xs g' (n : nat) :
  resumes resume g xs g' ->
  exists gn, resumes resume g (firstn n xs) gn /\ resumes resume gn (skipn n xs) g'.
Proof.
  intros R. revert n. induction R as [g|g x g1 xs g2 E R IH]; intros n.
  - exists g. destruct n; split; constructor.
  - destruct n as [|n].
    + exists g. split; [constructor | econstructor; eassumption].
    + destruct (IH n) as (gn & R1 & R2). exists gn.
      split; [econstructor; eassumption | exact R2].
Qed.

End Imported.

(** X9. Importing a finite native generator gives a well-behaved producer
    of its elements: the availability check is true once per element and
    false ever after. So [Size] of the imported value is the number of
    elements the generator yields, and it leaves the coroutine stopped
    ([stop] was called when the generator returned). *)
Theorem FromSeq_finite {T G : Type} `{Native T}
    (resume : Resume T G) (g : G) (xs : list T) (g' : G)
    (cv : ConvertFn T) (fuel : nat) :
  resumes resume g xs g' ->
  resume g' = None ->
  Z.of_nat (List.length xs) <= GoInt.max_int ->
  (List.length xs <= fuel)%nat ->
  produces (FromSeq_hasNext resume) (FromSeq_getNext (G := G))
           (env (FromSeq resume g (Some cv))) xs
           {| slot := last xs zero; pull := {| gen := g'; done := false |} |}
  /\ Size fuel (FromSeq resume g (Some cv))
     = (Ret (VInt (Z.of_nat (List.length xs))),
        mkValue (Z.of_nat (List.length xs) - 1) (last xs zero)
                (FromSeq_hasNext resume) (FromSeq_getNext (G := G)) cv
                {| slot := zero; pull := {| gen := g'; done := true |} |}).
Proof.
  intros R Hend Hmax Hfuel.
  assert (Hp : produces (FromSeq_hasNext resume) (FromSeq_getNext (G := G))
                 {| slot := zero; pull := {| gen := g; done := false |} |} xs
                 {| slot := last xs zero; pull := {| gen := g'; done := false |} |}).
  { split.
    - apply (FromSeq_delivers resume g xs g' R zero).
    - apply FromSeq_exhausted. exact Hend. }
  split; [exact Hp|].
  unfold FromSeq.
  rewrite (Size_fresh _ _ cv _ xs _ fuel Hp Hmax Hfuel).
  rewrite (FromSeq_hasNext_none resume _ g' Hend). reflexivity.
Qed.

Lemma FromSeq_finite_witness :
  produces (FromSeq_hasNext slices_Values) (FromSeq_getNext (G := list string))
           (env (FromSeq slices_Values ["test"; "example"; "sample"]%string
                         (Some VString)))
           ["test"; "example"; "sample"]%string
           {| slot := "sample"%string; pull := {| gen := []; done := false |} |}
  /\ Size 3 (FromSeq slices_Values ["test"; "example"; "sample"]%string (Some VString))
     = (Ret (VInt 3),
        mkValue 2 "sample"%string
                (FromSeq_hasNext slices_Values) (FromSeq_getNext (G := list string))
                VString
                {| slot := EmptyString; pull := {| gen := []; done := true |} |}).
Proof.
  refine (FromSeq_finite slices_Values ["test"; "example"; "sample"]%string
            ["test"; "example"; "sample"]%string [] VString 3 _ _ _ _).
  - repeat (econstructor; try reflexivity).
  - reflexivity.
  - unfold GoInt.max_int. simpl. lia.
  - simpl. lia.
Defined.

(** X10. Indexed access into an imported generator is lazy: [Get(i)]
    resumes the generator [i+1] times and no more (it is parked right
    behind its [(i+1)]-th [yield], not stopped), and returns the conversion
    of the element yielded last. The generator may be endless. *)
Theorem FromSeq_Get_lazy {T G : Type} `{Native T}
    (resume : Resume T G) (g : G) (xs : list T) (g' : G)
    (cv : ConvertFn T) (i fuel : nat) :
  resumes resume g xs g' ->
  (i < List.length xs)%nat ->
  Z.of_nat i <= GoInt.max_int ->
  (i < fuel)%nat ->
  exists gi,
    resumes resume g (firstn (S i) xs) gi
    /\ Get fuel (VInt (Z.of_nat i)) (FromSeq resume g (Some cv))
       = (Ret (cv (nth i xs zero)),
          mkValue (Z.of_nat i) (nth i xs zero)
                  (FromSeq_hasNext resume) (FromSeq_getNext (G := G)) cv
                  {| slot := nth i xs zero; pull := {| gen := gi; done := false |} |}).
Proof.
  intros R Hi Hmax Hfuel.
  destruct (resumes_split resume g xs g' (S i) R) as (gi & R1 & _).
  exists gi. split; [exact R1|].
  pose proof (FromSeq_delivers resume g _ gi R1 zero) as D.
  rewrite (last_firstn_nth xs i zero Hi) in D.
  unfold FromSeq.
  apply (Get_fresh_prefix _ _ cv _ xs _ i fuel D Hi Hmax Hfuel).
Qed.

Lemma FromSeq_Get_lazy_witness :
  exists gi,
    resumes fibSeq (0, 1) (firstn 4 [0; 1; 1; 2; 3]) gi
    /\ Get 4 (VInt 3) (FromSeq fibSeq (0, 1) (Some VInt))
       = (Ret (VInt 2),
          mkValue 3 2 (FromSeq_hasNext fibSeq) (FromSeq_getNext (G := Z * Z)) VInt
                  {| slot := 2; pull := {| gen := gi; done := false |} |}).
Proof.
  apply (FromSeq_Get_lazy fibSeq (0, 1) [0; 1; 1; 2; 3] (5, 8) VInt 3 4).
  - repeat (econstructor; try reflexivity).
  - simpl. lia.
  - unfold GoInt.max_int. simpl. lia.
  - lia.
Defined.

(** X11. On an imported generator the availability check is what pulls:
    each [HasNext] resumes the generator and overwrites the one element
    kept. Two checks in a row lose an element: the [Next] that follows
    delivers the second element at index 0, and the first is delivered
    nowhere. *)
Theorem FromSeq_HasNext_twice {T G : Type} `{Native T}
    (resume : Resume T G) (g : G) (x : T) (g1 : G) (y : T) (g2 : G)
    (cv : ConvertFn T) :
  resume g = Some (x, g1) ->
  resume g1 = Some (y, g2) ->
  let v := FromSeq resume g (Some cv) in
  let v1 := snd (HasNext v) in
  let v2 := snd (HasNext v1) in
  fst (HasNext v) = VBool true
  /\ fst (HasNext v1) = VBool true
  /\ Next v2
     = (cv y,
        mkValue 0 y (FromSeq_hasNext resume) (FromSeq_getNext (G := G)) cv
                {| slot := y; pull := {| gen := g2; done := false |} |}).
Proof.
  intros E1 E2 v v1 v2. unfold v2, v1, v, FromSeq, New.
  rewrite (HasNext_ok _ _ cv (-1) zero _ true _ (FromSeq_hasNext_some resume zero g x g1 E1)).
  cbn [fst snd].
  rewrite (HasNext_ok _ _ cv (-1) zero _ true _ (FromSeq_hasNext_some resume x g1 y g2 E2)).
  cbn [fst snd].
  repeat split.
Qed.

Lemma FromSeq_HasNext_twice_witness :
  let v := FromSeq slices_Values ["test"; "example"; "sample"]%string (Some VString) in
  fst (HasNext v) = VBool true
  /\ fst (HasNext (snd (HasNext v))) = VBool true
  /\ Next (snd (HasNext (snd (HasNext v))))
     = (VString "example",
        mkValue 0 "example"%string
                (FromSeq_hasNext slices_Values) (FromSeq_getNext (G := list string))
                VString
                {| slot := "example"%string;
                   pull := {| gen := ["sample"%string]; done := false |} |}).
Proof.
  apply (FromSeq_HasNext_twice slices_Values ["test"; "example"; "sample"]%string
           "test"%string ["example"; "sample"]%string
           "example"%string ["sample"%string] VString); reflexivity.
Defined.

(** X12. On an imported generator [Next] never fails and never resumes
    the generator: it delivers whatever the last availability check kept.
    Without a check before it, on a new cursor, that is the zero value of
    the element type, delivered at index 0 with the generator untouched;
    and after the generator has returned it is the zero value again,
    delivered at an index no element has. *)
Theorem FromSeq_Next_unchecked {T G : Type} `{Native T}
    (resume : Resume T G) (cv : ConvertFn T) :
  (forall (v : Value T (SeqEnv T G)),
      next v = FromSeq_getNext (G := G) ->
      Next v
      = (convert v (slot (env v)),
         mkValue (GoInt.incr (index v)) (slot (env v)) (hasNext v) (next v)
                 (convert v) (env v)))
  /\ (forall g,
         Next (FromSeq resume g (Some cv))
         = (cv zero,
            mkValue 0 zero (FromSeq_hasNext resume) (FromSeq_getNext (G := G)) cv
                    {| slot := zero; pull := {| gen := g; done := false |} |}))
  /\ (forall g xs g' fuel,
         resumes resume g xs g' ->
         resume g' = None ->
         Z.of_nat (List.length xs) <= GoInt.max_int ->
         (List.length xs <= fuel)%nat ->
         let drained := snd (Size fuel (FromSeq resume g (Some cv))) in
         fst (Next drained) = cv zero
         /\ index (snd (Next drained)) = Z.of_nat (List.length xs)).
Proof.
  split; [|split].
  - intros v Hn. unfold Next. rewrite Hn. reflexivity.
  - intros g. reflexivity.
  - intros g xs g' fuel R Hend Hmax Hfuel drained.
    assert (Hp : produces (FromSeq_hasNext resume) (FromSeq_getNext (G := G))
                   {| slot := zero; pull := {| gen := g; done := false |} |} xs
                   {| slot := last xs zero; pull := {| gen := g'; done := false |} |}).
    { split.
      - apply (FromSeq_delivers resume g xs g' R zero).
      - apply FromSeq_exhausted. exact Hend. }
    unfold drained, FromSeq.
    rewrite (Size_fresh _ _ cv _ xs _ fuel Hp Hmax Hfuel).
    rewrite (FromSeq_hasNext_none resume _ g' Hend).
    cbn [snd]. unfold Next. cbn [next env slot fst snd index FromSeq_getNext].
    split; [reflexivity|].
    rewrite incr_below_max by (unfold GoInt.min_int; lia). lia.
Qed.

Lemma FromSeq_Next_unchecked_witness :
  let v := FromSeq slices_Values ["test"; "example"]%string (Some VString) in
  Next v
  = (VString "",
     mkValue (GoInt.incr (-1)) EmptyString (FromSeq_hasNext slices_Values)
             (FromSeq_getNext (G := list string)) VString (env v))
  /\ (fst (Next (snd (Size 2 v))) = VString ""
      /\ index (snd (Next (snd (Size 2 v)))) = 2).
Proof.
  intros v.
  destruct (@FromSeq_Next_unchecked string (list string) _ slices_Values VString)
    as (A & _ & C).
  split.
  - apply (A v). reflexivity.
  - apply (C ["test"; "example"]%string ["test"; "example"]%string [] 2%nat).
    + repeat (econstructor; try reflexivity).
    + reflexivity.
    + unfold GoInt.max_int. simpl. lia.
    + simpl. lia.
Defined.

(** * Further properties of the exporter *)

Section Exported.

Context {T P : Type} `{Native T}.
Context {U : Type} `{Native U}.
Context {C : Type}.
Variables (hn : HasNextFn P) (nx : NextFn T P) (cv : ConvertFn T).
Variable conv : Val -> option U.
Variable yield : U -> C -> bool * C.

Lemma AsSeq_loop_eq fuel (iterVal : Value T P) (c : C) :
  AsSeq_loop conv yield fuel iterVal c =
  let '(rv, it1) := HasNext iterVal in
  if negb (sprint_is_true rv) then (Ret tt, it1, c)
  else
    match fuel with
    | O => (OutOfFuel, it1, c)
    | S fuel' =>
        let '(e, it2) := Next it1 in
        match conv e with
        | None => (Panic BadTypeAssertion, it2, c)
        | Some t =>
            let '(more, c') := yield t c in
            if negb more then (Ret tt, it2, c')
            else AsSeq_loop conv yield fuel' it2 c'
        end
    end.
Proof.
  destruct fuel; simpl; destruct (HasNext iterVal) as [rv it1];
    destruct (sprint_is_true rv); simpl; try reflexivity.
  destruct (Next it1) as [e it2]. destruct (conv e); reflexivity.
Qed.

Variable f : T -> U.
Hypothesis conv_cv : forall x, conv (cv x) = Some (f x).

Lemma AsSeq_loop_push p xs p' :
  delivers hn nx p xs p' ->
  exhausted hn p' ->
  forall i c a fuel,
    (List.length xs <= fuel)%nat ->
    exists it,
      AsSeq_loop conv yield fuel (mkValue i c hn nx cv p) a
      = (Ret tt, it, snd (push yield (map f xs) a))
      /\ index it = Nat.iter (fst (push yield (map f xs) a)) GoInt.incr i
      /\ cur it = last (firstn (fst (push yield (map f xs) a)) xs) c
      /\ (delivers hn nx (env it) (skipn (fst (push yield (map f xs) a)) xs) p'
          \/ exhausted hn (env it)).
Proof.
  induction 1 as [p|p p1 x p2 xs p' E1 E2 D IH]; intros Hex i c a fuel Hfuel.
  - rewrite AsSeq_loop_eq, (HasNext_exhausted hn nx cv i c p Hex). cbn.
    eexists. split; [reflexivity|]. cbn.
    repeat split. right. apply exhausted_step. exact Hex.
  - rewrite AsSeq_loop_eq, (HasNext_ok hn nx cv i c p true p1 E1).
    cbn [sprint_is_true negb].
    destruct fuel as [|fuel]; [simpl in Hfuel; lia|].
    rewrite (Next_ok hn nx cv i c p1 x p2 E2), conv_cv.
    cbn [map push]. destruct (yield (f x) a) as [more a1]. destruct more; cbn [negb].
    + destruct (IH Hex (GoInt.incr i) x a1 fuel) as (it & E & Hi & Hc & Hrest);
        [simpl in Hfuel; lia|].
      exists it. destruct (push yield (map f xs) a1) as [n a2]. cbn [fst snd] in *.
      split; [exact E|]. split; [|split].
      * rewrite Nat.iter_succ_r. exact Hi.
      * cbn [firstn]. rewrite last_cons. exact Hc.
      * exact Hrest.
    + eexists. split; [reflexivity|]. cbn. repeat split. left. exact D.
Qed.

End Exported.

(** X13. Exporting a cursor over a well-behaved producer of [xs] hands the
    consumer the elements of [xs], converted and taken back, in order, as a
    loop over the slice would, and stops where the consumer stops: the
    cursor is left on the last element handed over, and the elements the
    consumer did not take are still to come (or the producer is exhausted,
    when it took them all). *)
Theorem AsSeq_of_cursor {T P U C : Type} `{Native T} `{Native U}
    (hn : HasNextFn P) (nx : NextFn T P) (cv : ConvertFn T)
    (conv : Val -> option U) (f : T -> U) (yield : U -> C -> bool * C)
    (p : P) (xs : list T) (p' : P) (i : Z) (c : T) (a : C) (fuel : nat) :
  produces hn nx p xs p' ->
  (forall x, conv (cv x) = Some (f x)) ->
  (List.length xs <= fuel)%nat ->
  let n := fst (push yield (map f xs) a) in
  exists it,
    AsSeq (RCursor (mkValue i c hn nx cv p)) (Some conv) yield fuel a
    = (Ret tt, RCursor it, snd (push yield (map f xs) a))
    /\ index it = Nat.iter n GoInt.incr i
    /\ cur it = last (firstn n xs) c
    /\ (delivers hn nx (env it) (skipn n xs) p' \/ exhausted hn (env it)).
Proof.
  intros [D Hex] Hconv Hfuel n.
  destruct (AsSeq_loop_push hn nx cv conv yield f Hconv p xs p' D Hex i c a fuel Hfuel)
    as (it & E & Hi & Hc & Hrest).
  exists it. unfold AsSeq. rewrite E.
  split; [reflexivity|]. split; [exact Hi|]. split; [exact Hc | exact Hrest].
Qed.

Lemma AsSeq_of_cursor_witness :
  let take2 := fun (x : string) (acc : list string) =>
                 (Nat.ltb (List.length acc) 1, acc ++ [x]) in
  exists it,
    AsSeq (RCursor (New (Some slice_hasNext) (Some slice_next) (Some VString)
                        ["test"; "example"; "sample"]%string))
          (Some assert_Value) take2 3 []
    = (Ret tt, RCursor it, ["test"; "example"]%string)
    /\ index it = 1
    /\ cur it = "example"%string
    /\ (delivers slice_hasNext slice_next (env it) ["sample"%string] []
        \/ exhausted slice_hasNext (env it)).
Proof.
  intros take2.
  refine (AsSeq_of_cursor slice_hasNext slice_next VString assert_Value (fun x => x)
            take2 ["test"; "example"; "sample"]%string
            ["test"; "example"; "sample"]%string [] (-1) EmptyString [] 3 _ _ _).
  - split; [repeat (econstructor; try reflexivity) | apply slice_exhausted].
  - intros x. reflexivity.
  - simpl. lia.
Defined.

(** X14. When the availability check of the cursor fails, the exported
    generator ends as if the stream were over: it yields nothing more,
    returns normally and does not fault (the error value does not print as
    [true]); the error is not reported to the consumer. *)
Theorem AsSeq_hasNext_error {T P U C : Type} `{Native T} `{Native U}
    (v : Value T P) (b : bool) (e : error) (p' : P)
    (conv : option (Val -> option U)) (yield : U -> C -> bool * C)
    (fuel : nat) (c : C) :
  hasNext v (env v) = ((b, Some e), p') ->
  AsSeq (RCursor v) conv yield fuel c
  = (Ret tt,
     RCursor (mkValue (index v) (cur v) (hasNext v) (next v) (convert v) p'),
     c).
Proof.
  intros E. unfold AsSeq. rewrite AsSeq_loop_eq.
  unfold HasNext. rewrite E. reflexivity.
Qed.

Lemma AsSeq_hasNext_error_witness :
  AsSeq (RCursor (New (Some failing_hasNext) None (Some VString) tt))
        (None : option (Val -> option string)) collect 3 []
  = (Ret tt, RCursor (New (Some failing_hasNext) None (Some VString) tt), []).
Proof.
  apply (AsSeq_hasNext_error (New (Some failing_hasNext) None (Some VString) tt)
           false "backend unavailable"%string tt None collect 3 []).
  reflexivity.
Defined.

(** X15. A failed advance does not end the exported generator: the error
    value [Next] returns goes to the conversion like an element. Where the
    conversion cannot take it (as the default assertion to a string or a
    boolean cannot) the generator faults; where it can, the converted error
    is yielded to the consumer and the loop goes on. *)
Theorem AsSeq_next_error {T P U C : Type} `{Native T} `{Native U}
    (v : Value T P) (p1 : P) (x : T) (e : error) (p2 : P)
    (conv : Val -> option U) (yield : U -> C -> bool * C) (fuel : nat) (c : C) :
  hasNext v (env v) = ((true, None), p1) ->
  next v p1 = ((x, Some e), p2) ->
  let err := VErr ("error getting next element: " ++ e)%string in
  let v2 := mkValue (index v) (cur v) (hasNext v) (next v) (convert v) p2 in
  (conv err = None ->
   AsSeq (RCursor v) (Some conv) yield (S fuel) c
   = (Panic BadTypeAssertion, RCursor v2, c))
  /\ (forall u,
         conv err = Some u ->
         AsSeq (RCursor v) (Some conv) yield (S fuel) c
         = if fst (yield u c)
           then AsSeq (RCursor v2) (Some conv) yield fuel (snd (yield u c))
           else (Ret tt, RCursor v2, snd (yield u c)))
  /\ assert_Value (T := string) err = None
  /\ assert_Value (T := bool) err = None.
Proof.
  intros E1 E2 err v2.
  assert (Hstep : AsSeq_loop conv yield (S fuel) v c
                  = match conv err with
                    | None => (Panic BadTypeAssertion, v2, c)
                    | Some t =>
                        let '(more, c') := yield t c in
                        if negb more then (Ret tt, v2, c')
                        else AsSeq_loop conv yield fuel v2 c'
                    end).
  { rewrite AsSeq_loop_eq. unfold HasNext. rewrite E1.
    cbn [sprint_is_true negb]. unfold Next. cbn [next env]. rewrite E2. reflexivity. }
  split; [|split; [|split; reflexivity]].
  - intros Hc. unfold AsSeq. rewrite Hstep, Hc. reflexivity.
  - intros u Hc. unfold AsSeq. rewrite Hstep, Hc.
    destruct (yield u c) as [more c']. destruct more; reflexivity.
Qed.

Lemma AsSeq_next_error_witness :
  let v := New (Some flaky_hasNext) (Some flaky_next) (Some VString) O in
  let text := fun r => match r with
                       | VString s => Some s
                       | VErr m => Some m
                       | _ => None
                       end in
  AsSeq (RCursor v) (Some assert_Value) collect 2 ([] : list string)
  = (Panic BadTypeAssertion,
     RCursor (mkValue (-1) EmptyString flaky_hasNext flaky_next VString 1%nat), [])
  /\ AsSeq (RCursor v) (Some text) collect 2 []
     = (Ret tt,
        RCursor (mkValue 0 "late"%string flaky_hasNext flaky_next VString 2%nat),
        ["error getting next element: timeout"; "late"]%string).
Proof.
  intros v text. split.
  - destruct (AsSeq_next_error (U := string) v O EmptyString "timeout"%string 1%nat
                assert_Value collect 1 [] eq_refl eq_refl) as (A & _).
    apply A. reflexivity.
  - destruct (AsSeq_next_error (U := string) v O EmptyString "timeout"%string 1%nat
                text collect 1 [] eq_refl eq_refl) as (_ & B & _).
    rewrite (B _ eq_refl). reflexivity.
Defined.
